(** * Verification of the rell deploy command

    A shallow embedding of [cmd/deploy] (the Go program that starts the
    redis and rell containers, writes the nginx configuration, waits for
    the new release, switches production and sweeps old releases) and
    the properties its specification states about it.

    Layout: Go library functions the program calls, the world the
    program acts on (docker daemon, file system, clock, trace of calls),
    the program itself, then the theorems. *)

From Stdlib Require Import ZArith Ascii String List Lia Bool.
From stdpp Require Import base option list gmap strings pretty.
Import ListNotations.

Local Open Scope Z_scope.

(** ** Go strings *)

Module GoString.

(** [strings.HasPrefix(s, prefix)]. *)
Definition HasPrefix (s prefix : string) : bool := String.prefix prefix s.

(** [s[n:]] for [n <= len(s)]: the string without its first [n] bytes.
    Slicing beyond the length panics in Go, which is [None] here. *)
Fixpoint slice_from (n : nat) (s : string) : option string :=
  match n, s with
  | O, _ => Some s
  | S _, EmptyString => None
  | S n', String _ r => slice_from n' r
  end.

(** [strings.Join(parts, sep)]. *)
Fixpoint Join (parts : list string) (sep : string) : string :=
  match parts with
  | [] => ""
  | [p] => p
  | p :: rest => p +:+ sep +:+ Join rest sep
  end.

(** [strings.Split(s, sep)] for a one-byte separator: never empty, the
    pieces between the separators in order. *)
Fixpoint Split1 (sep : ascii) (s : string) : list string :=
  match s with
  | EmptyString => [""]
  | String c r =>
      if Ascii.eqb c sep then "" :: Split1 sep r
      else match Split1 sep r with
           | [] => [String c ""]
           | h :: t => String c h :: t
           end
  end.

(** The bytes [unicode.IsSpace] accepts below 0x80. *)
Definition isSpace (c : ascii) : bool :=
  let n := nat_of_ascii c in
  ((9 <=? n) && (n <=? 13))%nat || (n =? 32)%nat.

Definition bytes (codes : list nat) : string :=
  fold_right (λ n s, String (ascii_of_nat n) s) EmptyString codes.

(** The UTF-8 encodings of the runes [unicode.IsSpace] accepts from
    0x80 on: U+0085, U+00A0, U+1680, U+2000 to U+200A, U+2028, U+2029,
    U+202F, U+205F and U+3000. *)
Definition wide_spaces : list string :=
  map bytes
    ([[194; 133]; [194; 160]; [225; 154; 128]]
     ++ map (λ n, [226; 128; n]) (seq 128 11)
     ++ [[226; 128; 168]; [226; 128; 169]; [226; 128; 175];
         [226; 129; 159]; [227; 128; 128]])%nat.

(** [s] without its beginning [p], when it begins with [p]. *)
Fixpoint cut (p s : string) : option string :=
  match p, s with
  | EmptyString, _ => Some s
  | String a p', String b s' => if Ascii.eqb a b then cut p' s' else None
  | String _ _, EmptyString => None
  end.

(** [s] without its first rune, when that is white space.  A byte
    sequence that is not the encoding of a rune decodes to U+FFFD,
    which is not white space. *)
Definition cut_space (s : string) : option string :=
  match s with
  | EmptyString => None
  | String c r =>
      if isSpace c then Some r
      else head (omap (λ p, cut p s) wide_spaces)
  end.

(** The same from the end, on the reversed string: the last rune is the
    one whose first byte is the nearest byte from the end that is not a
    continuation byte. *)
Definition cut_space_rev (s : string) : option string :=
  match s with
  | EmptyString => None
  | String c r =>
      if isSpace c then Some r
      else head (omap (λ p, cut (String.rev p) s) wide_spaces)
  end.

(** Cutting while there is something to cut; [fuel] bounds the number
    of cuts, each of which shortens the string. *)
Fixpoint trim (cut1 : string → option string) (fuel : nat) (s : string)
  : string :=
  match fuel with
  | O => s
  | S fuel =>
      match cut1 s with
      | Some r => trim cut1 fuel r
      | None => s
      end
  end.

Definition trimLeft (s : string) : string :=
  trim cut_space (String.length s) s.

Definition trimRight (s : string) : string :=
  String.rev (trim cut_space_rev (String.length s) (String.rev s)).

(** [strings.TrimSpace]: the string without the white space runes at
    its beginning and at its end. *)
Definition TrimSpace (s : string) : string := trimRight (trimLeft s).

Definition digit (c : ascii) : option Z :=
  let n := nat_of_ascii c in
  if ((48 <=? n) && (n <=? 57))%nat then Some (Z.of_nat n - 48) else None.

Fixpoint digits (acc : Z) (s : string) : option Z :=
  match s with
  | EmptyString => Some acc
  | String c r =>
      match digit c with
      | Some d => digits (10 * acc + d) r
      | None => None
      end
  end.

(** [strconv.Atoi] on a 64-bit platform: an optional sign, at least one
    decimal digit, nothing else, and the value must fit an [int]. *)
Definition Atoi (s : string) : option Z :=
  let in_range (z : Z) :=
    if (-(2 ^ 63) <=? z) && (z <? 2 ^ 63) then Some z else None in
  match s with
  | EmptyString => None
  | String "+" (String c r) => digits 0 (String c r) ≫= in_range
  | String "-" (String c r) =>
      digits 0 (String c r) ≫= fun z => in_range (- z)
  | _ => digits 0 s ≫= in_range
  end.

Definition no_slash (s : string) : Prop :=
  ∀ i, String.get i s ≠ Some "/"%char.

Fixpoint no_slashb (s : string) : bool :=
  match s with
  | EmptyString => true
  | String c r => negb (Ascii.eqb c "/") && no_slashb r
  end.

End GoString.

(** ** [path/filepath] on Unix *)

Module filepath.
Import GoString.

(** One path element met by [Clean]; [stack] holds the elements kept
    so far, last one first. *)
Definition clean_elem (rooted : bool) (stack : list string) (e : string)
  : list string :=
  if String.eqb e "" || String.eqb e "." then stack
  else if String.eqb e ".." then
    match stack with
    | [] => if rooted then [] else [".."]
    | top :: below =>
        if String.eqb top ".." then ".." :: stack else below
    end
  else e :: stack.

(** [filepath.Clean]: empty and [.] elements dropped, [..] cancelling the
    element before it, a rooted path staying rooted, the empty result
    being [.]. *)
Definition Clean (p : string) : string :=
  match p with
  | EmptyString => "."
  | String c _ =>
      let rooted := Ascii.eqb c "/" in
      let kept := rev (fold_left (clean_elem rooted) (Split1 "/" p) []) in
      if rooted then "/" +:+ Join kept "/"
      else match kept with [] => "." | _ => Join kept "/" end
  end.

(** [filepath.Join(a, b)]: empty elements are ignored, the rest joined
    with a slash and cleaned. *)
Definition Join (a b : string) : string :=
  match a, b with
  | EmptyString, EmptyString => ""
  | EmptyString, _ => Clean b
  | _, EmptyString => Clean a
  | _, _ => Clean (a +:+ "/" +:+ b)
  end.

(** [filepath.Dir]: everything up to the last slash, cleaned. *)
Definition Dir (p : string) : string :=
  match rev (Split1 "/" p) with
  | [] | [_] => "."
  | _ :: before => Clean (GoString.Join (rev before) "/" +:+ "/")
  end.

End filepath.

(** ** Errors *)

(** Go [error] values the program meets.  A Go [error] that may be [nil]
    is an [option error]. *)
Inductive error : Type :=
| ErrNotFound                    (* dockerclient.ErrNotFound *)
| ErrOther (msg : string)        (* any other error of a library or of the OS *)
| StackErr (underlying : error)  (* *stackerr.Error *)
| multiError (errs : list error) (* type multiError []error *).

(** [func (m multiError) Error() string], with the messages of the other
    errors. *)
Fixpoint Error (e : error) : string :=
  match e with
  | ErrNotFound => "Not found"
  | ErrOther msg => msg
  | StackErr u => Error u
  | multiError m => "multiple errors: " +:+ GoString.Join (map Error m) " | "
  end.

Module stackerr.
(** Modelled from the spec: [stackerr.Wrap] of github.com/facebookgo/stackerr
    is not among the sources; section 7 says errors are wrapped with
    stack information and keep their kind.  [nil] stays [nil], an error
    that is already wrapped is returned as it is. *)
Definition wrapped (e : error) : error :=
  match e with
  | StackErr u => StackErr u
  | _ => StackErr e
  end.

Definition Wrap (err : option error) : option error := wrapped <$> err.

Definition Underlying (e : error) : error :=
  match e with StackErr u => u | _ => e end.
End stackerr.

Inductive result (A : Type) : Type :=
| OK (a : A)
| Err (e : error).
Arguments OK {A} a.
Arguments Err {A} e.

Definition err_of {A} (r : result A) : option error :=
  match r with OK _ => None | Err e => Some e end.

(** ** The world outside the program *)

(** A container as the docker daemon holds it: the fields of
    [dockerclient.Container] (listing) and [dockerclient.ContainerInfo]
    (inspection) that the program reads. *)
Record Container : Type := {
  Id : string;
  Names : list string;
  Image : string;
  Running : bool;          (* ContainerInfo.State.Running *)
  IpAddress : string       (* ContainerInfo.NetworkSettings.IpAddress *)
}.

Record ContainerConfig : Type := {
  cfg_User : string;
  cfg_Image : string;
  cfg_Env : list string
}.

Record HostConfig : Type := {
  hc_Binds : list string;
  hc_Links : list string
}.

(** Every call the program makes on the docker client, the operating
    system and the network. *)
Inductive Call : Type :=
| docker_NewDockerClient (url : string)
| docker_InspectContainer (name : string)
| docker_CreateContainer (config : ContainerConfig) (name : string)
| docker_StartContainer (id : string) (config : HostConfig)
| docker_StopContainer (id : string) (timeout : Z)
| docker_RemoveContainer (id : string)
| docker_ListContainers (all : bool)
| os_Create (name : string)
| Template_Execute (template name text : string)
| fmt_Fprint (name text : string)
| File_Close (name : string)
| os_Remove (name : string)
| os_MkdirAll (path : string) (perm : Z)
| ioutil_ReadFile (name : string)
| os_FindProcess (pid : Z)
| Process_Signal (pid : Z) (sig : string)
| http_Head (url : string)
| Body_Close (url : string)
| time_Sleep (d : Z).

(** One call as it happened: what was called, the error it returned (if
    any) and the clock when it returned. *)
Record Event : Type := {
  ev_call : Call;
  ev_err : option error;
  ev_at : Z
}.

(** What the environment decides about a call: whether it fails (with
    which message), how long an HTTP request takes, how many bytes of a
    failed write reached the file, and the identifier or address the
    daemon assigns.  A failure the environment injects is an [ErrOther];
    [ErrNotFound] is what the daemon answers when it has no such
    container. *)
Record Reply : Type := {
  r_err : option string;
  r_took : Z;
  r_part : nat;
  r_text : string
}.

(** What [spew.Dump] printed. *)
Inductive Dumped : Type :=
| DumpNames (names : list string)
| DumpString (s : string).

(** Modelled from the spec: the docker daemon behind
    github.com/samalba/dockerclient, the file system, the nginx process,
    the HTTP endpoint and the clock are collaborators outside the
    sources (section 6 lists their operations).  [containers] is the
    daemon's list, [files] the file contents by path, [now] the clock in
    nanoseconds, [trace] every call so far in order, and [oracle] answers
    each call from the calls before it, so that any operation may fail
    at any time. *)
Record World : Type := {
  containers : list Container;
  files : gmap string string;
  now : Z;
  trace : list Event;
  stdout : list Dumped;
  oracle : list Event → Call → Reply
}.

Record DockerClient : Type := { URL : string }.

(** [type Deploy struct]. [clientOnce] is [true] once the [sync.Once] has
    run its function. *)
Record Deploy : Type := {
  DockerURL : string;
  ServerSuffix : string;
  CertFile : string;
  KeyFile : string;
  client : option DockerClient;
  clientErr : option error;
  clientOnce : bool
}.

Record State : Type := { dep : Deploy; world : World }.

(** ** The monad of the program: state, early return of an error, panic *)

Inductive Res (A : Type) : Type :=
| Done (a : A)        (* the function returned [a] (with a nil error) *)
| Fail (e : error)    (* the function returned the error [e] *)
| Panic               (* a run-time panic unwound the program *)
| Spin                (* the loop budget of the model ran out *).
Arguments Done {A} a.
Arguments Fail {A} e.
Arguments Panic {A}.
Arguments Spin {A}.

Definition M (A : Type) : Type := State → Res A * State.

Definition ret {A} (a : A) : M A := fun s => (Done a, s).
Definition fail {A} (e : error) : M A := fun s => (Fail e, s).
Definition panic {A} : M A := fun s => (Panic, s).
Definition spin {A} : M A := fun s => (Spin, s).

Definition bind {A B} (m : M A) (k : A → M B) : M B := fun s =>
  match m s with
  | (Done a, s') => k a s'
  | (Fail e, s') => (Fail e, s')
  | (Panic, s') => (Panic, s')
  | (Spin, s') => (Spin, s')
  end.

Declare Scope go_scope.
Delimit Scope go_scope with go.
Notation "x <- m ;; k" := (bind m (fun x => k))
  (at level 100, m at next level, right associativity) : go_scope.
Notation "m ;;; k" := (bind m (fun _ => k))
  (at level 100, right associativity) : go_scope.
Local Open Scope go_scope.

(** [if err != nil { return stackerr.Wrap(err) }] after a call. *)
Definition orWrap {A} (m : M (result A)) : M A :=
  r <- m ;;
  match r with
  | OK a => ret a
  | Err e => fail (stackerr.wrapped e)
  end.

(** A slice expression or index that panics when out of range. *)
Definition orPanic {A} (o : option A) : M A :=
  match o with Some a => ret a | None => panic end.

(** ** The operations of the world *)

Definition set_world (s : State) (w : World) : State :=
  {| dep := dep s; world := w |}.

Definition ask (c : Call) (s : State) : Reply :=
  oracle (world s) (trace (world s)) c.

(** The world after call [c] returned [e]; [cs], [fs] and [t] are the
    daemon's containers, the files and the clock it leaves. *)
Definition after (s : State) (c : Call) (e : option error)
    (cs : list Container) (fs : gmap string string) (t : Z) : State :=
  set_world s
    {| containers := cs; files := fs; now := t;
       trace := trace (world s) ++ [{| ev_call := c; ev_err := e; ev_at := t |}];
       stdout := stdout (world s); oracle := oracle (world s) |}.

(** A call that leaves containers, files and clock as they are. *)
Definition logged (s : State) (c : Call) (e : option error) : State :=
  after s c e (containers (world s)) (files (world s)) (now (world s)).

(** A call the environment lets fail with [msg]. *)
Definition refused {A} (s : State) (c : Call) (msg : string)
  : Res (result A) * State :=
  (Done (Err (ErrOther msg)), logged s c (Some (ErrOther msg))).

(** *** Docker *)

(** The daemon resolves a reference as a container identifier or as a
    container name (listed names carry a leading slash). *)
Definition refers (ref : string) (c : Container) : bool :=
  String.eqb (Id c) ref || existsb (String.eqb ("/" +:+ ref)) (Names c).

Definition set_running (b : bool) (ip : string) (c : Container) : Container :=
  {| Id := Id c; Names := Names c; Image := Image c;
     Running := b; IpAddress := ip |}.

Module dockerclient.

Definition NewDockerClient (url : string) : M (result DockerClient) := fun s =>
  let c := docker_NewDockerClient url in
  match r_err (ask c s) with
  | Some msg => refused s c msg
  | None => (Done (OK {| URL := url |}), logged s c None)
  end.

Definition InspectContainer (_ : DockerClient) (name : string)
  : M (result Container) := fun s =>
  let c := docker_InspectContainer name in
  match r_err (ask c s) with
  | Some msg => refused s c msg
  | None =>
      match find (refers name) (containers (world s)) with
      | Some ci => (Done (OK ci), logged s c None)
      | None => (Done (Err ErrNotFound), logged s c (Some ErrNotFound))
      end
  end.

(** The new container is not running; the daemon picks its identifier. *)
Definition CreateContainer (_ : DockerClient) (config : ContainerConfig)
    (name : string) : M (result string) := fun s =>
  let c := docker_CreateContainer config name in
  let w := world s in
  match r_err (ask c s) with
  | Some msg => refused s c msg
  | None =>
      let id := r_text (ask c s) in
      let new := {| Id := id; Names := ["/" +:+ name];
                    Image := cfg_Image config;
                    Running := false; IpAddress := "" |} in
      (Done (OK id), after s c None (containers w ++ [new]) (files w) (now w))
  end.

(** Starting assigns the address. *)
Definition StartContainer (_ : DockerClient) (id : string)
    (config : HostConfig) : M (result unit) := fun s =>
  let c := docker_StartContainer id config in
  let w := world s in
  match r_err (ask c s) with
  | Some msg => refused s c msg
  | None =>
      if existsb (refers id) (containers w) then
        let start x :=
          if refers id x then set_running true (r_text (ask c s)) x else x in
        (Done (OK tt),
         after s c None (map start (containers w)) (files w) (now w))
      else (Done (Err ErrNotFound), logged s c (Some ErrNotFound))
  end.

Definition StopContainer (_ : DockerClient) (id : string) (timeout : Z)
  : M (result unit) := fun s =>
  let c := docker_StopContainer id timeout in
  let w := world s in
  match r_err (ask c s) with
  | Some msg => refused s c msg
  | None =>
      if existsb (refers id) (containers w) then
        let stop x := if refers id x then set_running false "" x else x in
        (Done (OK tt),
         after s c None (map stop (containers w)) (files w) (now w))
      else (Done (Err ErrNotFound), logged s c (Some ErrNotFound))
  end.

Definition RemoveContainer (_ : DockerClient) (id : string)
  : M (result unit) := fun s =>
  let c := docker_RemoveContainer id in
  let w := world s in
  match r_err (ask c s) with
  | Some msg => refused s c msg
  | None =>
      if existsb (refers id) (containers w) then
        (Done (OK tt),
         after s c None
           (filter (fun x => negb (refers id x)) (containers w))
           (files w) (now w))
      else (Done (Err ErrNotFound), logged s c (Some ErrNotFound))
  end.

Definition ListContainers (_ : DockerClient) (all : bool)
  : M (result (list Container)) := fun s =>
  let c := docker_ListContainers all in
  match r_err (ask c s) with
  | Some msg => refused s c msg
  | None =>
      let shown := if all then containers (world s)
                   else filter Running (containers (world s)) in
      (Done (OK shown), logged s c None)
  end.

End dockerclient.

(** *** Files, processes, network and clock *)

Definition ENOENT (op name : string) : error :=
  ErrOther (op +:+ " " +:+ name +:+ ": no such file or directory").

Module os.

(** [os.Create]: the file exists and is empty afterwards. *)
Definition Create (name : string) : M (result string) := fun s =>
  let c := os_Create name in
  let w := world s in
  match r_err (ask c s) with
  | Some msg => refused s c msg
  | None =>
      (Done (OK name),
       after s c None (containers w) (<[name := ""]> (files w)) (now w))
  end.

(** Writing [text] to the open file [f]: all of it, or on failure the
    first [r_part] bytes. *)
Definition write (c : Call) (f text : string) : M (result unit) := fun s =>
  let w := world s in
  let old := default "" (files w !! f) in
  match r_err (ask c s) with
  | Some msg =>
      let part := String.substring 0 (r_part (ask c s)) text in
      (Done (Err (ErrOther msg)),
       after s c (Some (ErrOther msg)) (containers w)
         (<[f := old +:+ part]> (files w)) (now w))
  | None =>
      (Done (OK tt),
       after s c None (containers w) (<[f := old +:+ text]> (files w)) (now w))
  end.

Definition Close (f : string) : M (result unit) := fun s =>
  let c := File_Close f in
  match r_err (ask c s) with
  | Some msg => refused s c msg
  | None => (Done (OK tt), logged s c None)
  end.

Definition Remove (name : string) : M (result unit) := fun s =>
  let c := os_Remove name in
  let w := world s in
  match r_err (ask c s) with
  | Some msg => refused s c msg
  | None =>
      match files w !! name with
      | Some _ =>
          (Done (OK tt),
           after s c None (containers w) (delete name (files w)) (now w))
      | None =>
          (Done (Err (ENOENT "remove" name)),
           logged s c (Some (ENOENT "remove" name)))
      end
  end.

(** Directories are not part of [files]; the call is only recorded. *)
Definition MkdirAll (path : string) (perm : Z) : M (result unit) := fun s =>
  let c := os_MkdirAll path perm in
  match r_err (ask c s) with
  | Some msg => refused s c msg
  | None => (Done (OK tt), logged s c None)
  end.

Definition FindProcess (pid : Z) : M (result Z) := fun s =>
  let c := os_FindProcess pid in
  match r_err (ask c s) with
  | Some msg => refused s c msg
  | None => (Done (OK pid), logged s c None)
  end.

Definition Signal (process : Z) (sig : string) : M (result unit) := fun s =>
  let c := Process_Signal process sig in
  match r_err (ask c s) with
  | Some msg => refused s c msg
  | None => (Done (OK tt), logged s c None)
  end.

End os.

Module ioutil.
Definition ReadFile (name : string) : M (result string) := fun s =>
  let c := ioutil_ReadFile name in
  match r_err (ask c s) with
  | Some msg => refused s c msg
  | None =>
      match files (world s) !! name with
      | Some text => (Done (OK text), logged s c None)
      | None =>
          (Done (Err (ENOENT "open" name)),
           logged s c (Some (ENOENT "open" name)))
      end
  end.
End ioutil.

Module fmt.
(** [fmt.Fprint(f, text)] on an open file. *)
Definition Fprint (f text : string) : M (result unit) :=
  os.write (fmt_Fprint f text) f text.
End fmt.

Module http.
(** [http.Head(u)]: the request takes [r_took] and succeeds or not as
    the environment decides. *)
Definition Head (u : string) : M (result string) := fun s =>
  let c := http_Head u in
  let w := world s in
  let t := now w + r_took (ask c s) in
  match r_err (ask c s) with
  | Some msg =>
      (Done (Err (ErrOther msg)),
       after s c (Some (ErrOther msg)) (containers w) (files w) t)
  | None => (Done (OK u), after s c None (containers w) (files w) t)
  end.

(** [res.Body.Close()]. *)
Definition BodyClose (res : string) : M unit := fun s =>
  (Done tt,
   logged s (Body_Close res) (ErrOther <$> r_err (ask (Body_Close res) s))).
End http.

Module time.
Definition Millisecond : Z := 1000000.
Definition Second : Z := 1000 * Millisecond.
Definition Minute : Z := 60 * Second.

Definition Now : M Z := fun s => (Done (now (world s)), s).

(** [time.Sleep(d)] advances the clock by [d]. *)
Definition Sleep (d : Z) : M unit := fun s =>
  let w := world s in
  (Done tt, after s (time_Sleep d) None (containers w) (files w) (now w + d)).

(** [t.After(u)]. *)
Definition After (t u : Z) : bool := u <? t.

(** [d.Seconds()], truncated by the conversion to [int]. *)
Definition Seconds (d : Z) : Z := d ÷ Second.
End time.

Module spew.
Definition Dump (v : Dumped) : M unit := fun s =>
  let w := world s in
  (Done tt,
   set_world s
     {| containers := containers w; files := files w; now := now w;
        trace := trace w; stdout := stdout w ++ [v]; oracle := oracle w |}).
End spew.

(** ** The program *)

Definition infoCheckMaxWait : Z := time.Minute.
Definition infoCheckSleep : Z := 25 * time.Millisecond.
Definition lastDeployTagFile : string := "/var/lib/rell/production-tag".
Definition nginxConfDir : string := "/etc/nginx/server".
Definition nginxPidFile : string := "/run/nginx.pid".
Definition prodNginxConfFile : string := "rell-prod.conf".
Definition redisContainerLink : string := "redis:redis".
Definition redisContainerName : string := "redis".
Definition redisDataBind : string := "/var/lib/redis:/data".
Definition redisImage : string := "daaku/redis".
Definition rellContainerNamePrefix : string := "rell-".
Definition rellEnvFile : string := "/etc/conf.d/rell".
Definition rellImage : string := "daaku/rell".
Definition rellPort : Z := 43600.
Definition rellUser : string := "15151".
Definition stopTimeout : Z := 30 * time.Second.

(** The data of the two templates. *)
Record tagData : Type := {
  tag_BackendName : string;
  tag_ServerName : string;
  tag_IpAddress : string;
  tag_Port : Z;
  tag_CertFile : string;
  tag_KeyFile : string
}.

Record prodData : Type := {
  prod_ServerSuffix : string;
  prod_BackendName : string;
  prod_CertFile : string;
  prod_KeyFile : string
}.

(** [tagNginxConf], executed on [data]. *)
Definition tagNginxConf (data : tagData) : string :=
  "upstream "
    +:+ tag_BackendName data
    +:+ " {
  server               "
    +:+ tag_IpAddress data
    +:+ ":"
    +:+ pretty (tag_Port data)
    +:+ ";
}
server {
  listen               [::]:80;
  server_name          "
    +:+ tag_ServerName data
    +:+ ";
  charset              utf-8;
  access_log           off;

  location / {
    proxy_pass         http://"
    +:+ tag_BackendName data
    +:+ ";
    proxy_set_header   X-Forwarded-For         $remote_addr;
    proxy_set_header   X-Forwarded-Proto       http;
    proxy_set_header   X-Forwarded-Host        $host;
  }
}
server {
  listen               [::]:443;
  server_name          "
    +:+ tag_ServerName data
    +:+ ";
  ssl                  on;
  ssl_certificate      "
    +:+ tag_CertFile data
    +:+ ";
  ssl_certificate_key  "
    +:+ tag_KeyFile data
    +:+ ";
  ssl_prefer_server_ciphers on;
  ssl_ciphers 'kEECDH+ECDSA+AES128 kEECDH+ECDSA+AES256 kEECDH+AES128 kEECDH+AES256 kEDH+AES128 kEDH+AES256 DES-CBC3-SHA +SHA !aNULL !eNULL !LOW !MD5 !EXP !DSS !PSK !SRP !kECDH !CAMELLIA !RC4 !SEED';
  ssl_session_cache    shared:SSL:10m;
  ssl_session_timeout  10m;
  keepalive_timeout    70;
  ssl_buffer_size      1400;
  spdy_headers_comp    0;

  charset              utf-8;
  access_log           off;

  location / {
    proxy_pass         http://"
    +:+ tag_BackendName data
    +:+ ";
    proxy_set_header   X-Forwarded-For         $remote_addr;
    proxy_set_header   X-Forwarded-Proto       https;
    proxy_set_header   X-Forwarded-Host        $host;
  }
}
".

(** [prodNginxConf], executed on [data]. *)
Definition prodNginxConf (data : prodData) : string :=
  "server {
  listen               [::]:80;
  server_name          "
    +:+ prod_ServerSuffix data
    +:+ ";

  location / {
    rewrite (.*) http://www."
    +:+ prod_ServerSuffix data
    +:+ "$1 permanent;
  }
}
server {
  listen               [::]:443;
  server_name          "
    +:+ prod_ServerSuffix data
    +:+ ";
  ssl                  on;
  ssl_certificate      "
    +:+ prod_CertFile data
    +:+ ";
  ssl_certificate_key  "
    +:+ prod_KeyFile data
    +:+ ";
  ssl_prefer_server_ciphers on;
  ssl_ciphers 'kEECDH+ECDSA+AES128 kEECDH+ECDSA+AES256 kEECDH+AES128 kEECDH+AES256 kEDH+AES128 kEDH+AES256 DES-CBC3-SHA +SHA !aNULL !eNULL !LOW !MD5 !EXP !DSS !PSK !SRP !kECDH !CAMELLIA !RC4 !SEED';

  location / {
    rewrite (.*) https://www."
    +:+ prod_ServerSuffix data
    +:+ "$1 permanent;
  }
}
server {
  listen               [::]:80;
  server_name          www."
    +:+ prod_ServerSuffix data
    +:+ ";
  charset              utf-8;
  access_log           off;

  location / {
    proxy_pass         http://"
    +:+ prod_BackendName data
    +:+ ";
    proxy_set_header   X-Forwarded-For         $remote_addr;
    proxy_set_header   X-Forwarded-Proto       http;
    proxy_set_header   X-Forwarded-Host        $host;
  }
}
server {
  listen               [::]:443 ssl spdy ipv6only=off;
  server_name          www."
    +:+ prod_ServerSuffix data
    +:+ ";
  ssl                  on;
  ssl_certificate      "
    +:+ prod_CertFile data
    +:+ ";
  ssl_certificate_key  "
    +:+ prod_KeyFile data
    +:+ ";
  ssl_prefer_server_ciphers on;
  ssl_ciphers 'kEECDH+ECDSA+AES128 kEECDH+ECDSA+AES256 kEECDH+AES128 kEECDH+AES256 kEDH+AES128 kEDH+AES256 DES-CBC3-SHA +SHA !aNULL !eNULL !LOW !MD5 !EXP !DSS !PSK !SRP !kECDH !CAMELLIA !RC4 !SEED';
  ssl_session_cache    shared:SSL:10m;
  ssl_session_timeout  10m;
  keepalive_timeout    70;
  ssl_buffer_size      1400;
  spdy_headers_comp    0;

  charset              utf-8;
  access_log           off;

  location / {
    proxy_pass         http://"
    +:+ prod_BackendName data
    +:+ ";
    proxy_set_header   X-Forwarded-For         $remote_addr;
    proxy_set_header   X-Forwarded-Proto       https;
    proxy_set_header   X-Forwarded-Host        $host;
  }
}
".

Definition set_client (s : State) (c : option DockerClient) (e : option error)
  : State :=
  {| dep := {| DockerURL := DockerURL (dep s);
               ServerSuffix := ServerSuffix (dep s);
               CertFile := CertFile (dep s);
               KeyFile := KeyFile (dep s);
               client := c; clientErr := e; clientOnce := true |};
     world := world s |}.

(** [func (d *Deploy) docker()], returning the client and the error:
    [d.clientOnce.Do] runs the construction unless it already ran. *)
Definition docker : M (option DockerClient * option error) := fun s =>
  let s1 :=
    if clientOnce (dep s) then s
    else match dockerclient.NewDockerClient (DockerURL (dep s)) s with
         | (Done (OK c), s') => set_client s' (Some c) None
         | (Done (Err e), s') => set_client s' None (Some e)
         | (_, s') => s'
         end in
  (Done (client (dep s1), stackerr.Wrap (clientErr (dep s1))), s1).

(** [docker, err := d.docker(); if err != nil { return err }]; using a nil
    client panics. *)
Definition theDocker : M DockerClient :=
  p <- docker ;;
  match p with
  | (_, Some err) => fail err
  | (Some c, None) => ret c
  | (None, None) => panic
  end.

Definition is_ErrNotFound (e : error) : bool :=
  match e with ErrNotFound => true | _ => false end.

Definition containerNameForTag (tag : string) : string :=
  rellContainerNamePrefix +:+ tag.

Definition containerNginxConfPath (containerName : string) : string :=
  filepath.Join nginxConfDir (containerName +:+ ".conf").

(** [func tagFromNames(names []string) string]; [None] is the panic of
    [name[1:]] on an empty name. *)
Fixpoint tagFromNames (names : list string) : option string :=
  match names with
  | [] => Some ""
  | name :: rest =>
      match GoString.slice_from 1 name with
      | None => None
      | Some name =>
          if GoString.HasPrefix name rellContainerNamePrefix
          then GoString.slice_from (String.length rellContainerNamePrefix) name
          else tagFromNames rest
      end
  end.

Definition startRedis : M unit :=
  docker <- theDocker ;;
  r <- dockerclient.InspectContainer docker redisContainerName ;;
  let fresh : M unit :=
    (* need to create the container and start it *)
    let containerConfig :=
      {| cfg_User := ""; cfg_Image := redisImage; cfg_Env := [] |} in
    id <- orWrap (dockerclient.CreateContainer docker containerConfig
                    redisContainerName) ;;
    let hostConfig := {| hc_Binds := [redisDataBind]; hc_Links := [] |} in
    orWrap (dockerclient.StartContainer docker id hostConfig) in
  match r with
  | OK ci =>
      (* already running, we're set *)
      if Running ci then ret tt
      else
        (* exists but not running, remove it and start fresh *)
        orWrap (dockerclient.RemoveContainer docker redisContainerName) ;;;
        fresh
  | Err err =>
      (* some unknown error, bail *)
      if negb (is_ErrNotFound err) then fail (stackerr.wrapped err)
      else fresh
  end.

Definition rellEnv : M (list string) :=
  contents <- orWrap (ioutil.ReadFile rellEnvFile) ;;
  let lines := GoString.Split1 "010" contents in
  ret (filter (fun str => negb (String.eqb str ""))
         (map GoString.TrimSpace lines)).

Definition startRell (tag : string) : M unit :=
  docker <- theDocker ;;
  let containerName := containerNameForTag tag in
  r <- dockerclient.InspectContainer docker containerName ;;
  let fresh : M unit :=
    (* build our env from the config file *)
    env <- rellEnv ;;
    (* need to create the container and start it *)
    let containerConfig :=
      {| cfg_User := rellUser; cfg_Image := rellImage +:+ ":" +:+ tag;
         cfg_Env := env |} in
    id <- orWrap (dockerclient.CreateContainer docker containerConfig
                    containerName) ;;
    let hostConfig := {| hc_Binds := []; hc_Links := [redisContainerLink] |} in
    orWrap (dockerclient.StartContainer docker id hostConfig) in
  match r with
  | OK ci =>
      (* already running, we're set *)
      if Running ci then ret tt
      else
        (* exists but not running, remove it and start fresh *)
        orWrap (dockerclient.RemoveContainer docker containerName) ;;;
        fresh
  | Err err =>
      (* some unknown error, bail *)
      if negb (is_ErrNotFound err) then fail (stackerr.wrapped err)
      else fresh
  end.

Definition genTagNginxConf (tag : string) : M unit :=
  docker <- theDocker ;;
  let containerName := containerNameForTag tag in
  ci <- orWrap (dockerclient.InspectContainer docker containerName) ;;
  let filename := containerNginxConfPath containerName in
  f <- orWrap (os.Create filename) ;;
  d <- (fun s => (Done (dep s), s)) ;;
  let data :=
    {| tag_BackendName := containerName;
       tag_ServerName := tag +:+ "." +:+ ServerSuffix d;
       tag_IpAddress := IpAddress ci;
       tag_Port := rellPort;
       tag_CertFile := CertFile d;
       tag_KeyFile := KeyFile d |} in
  let text := tagNginxConf data in
  x <- os.write (Template_Execute "tag" f text) f text ;;
  match x with
  | Err err =>
      os.Close f ;;;
      os.Remove filename ;;;
      fail (stackerr.wrapped err)
  | OK _ =>
      orWrap (os.Close f)
  end.

Definition switchProd (tag : string) : M unit :=
  let containerName := containerNameForTag tag in
  (* rewrite the prod config *)
  let filename := filepath.Join nginxConfDir prodNginxConfFile in
  f <- orWrap (os.Create filename) ;;
  d <- (fun s => (Done (dep s), s)) ;;
  let data :=
    {| prod_ServerSuffix := ServerSuffix d;
       prod_BackendName := containerName;
       prod_CertFile := CertFile d;
       prod_KeyFile := KeyFile d |} in
  let text := prodNginxConf data in
  x <- os.write (Template_Execute "prod" f text) f text ;;
  match x with
  | Err err =>
      os.Close f ;;;
      os.Remove filename ;;;
      fail (stackerr.wrapped err)
  | OK _ =>
      orWrap (os.Close f) ;;;
      (* update the last deploy tag file *)
      os.MkdirAll (filepath.Dir lastDeployTagFile) 493 ;;;
      f <- orWrap (os.Create lastDeployTagFile) ;;
      orWrap (fmt.Fprint f tag) ;;;
      orWrap (os.Close f)
  end.

Definition hupNginx : M unit :=
  pidStr <- orWrap (ioutil.ReadFile nginxPidFile) ;;
  match GoString.Atoi (GoString.TrimSpace pidStr) with
  | None => fail (stackerr.wrapped (ErrOther "strconv.Atoi: invalid syntax"))
  | Some pid =>
      process <- orWrap (os.FindProcess pid) ;;
      orWrap (os.Signal process "SIGHUP")
  end.

(** The [for] loop of [infoCheck]; [budget] bounds the iterations the
    model follows. *)
Fixpoint infoCheck_loop (budget : nat) (u : string) (until : Z) : M unit :=
  match budget with
  | O => spin
  | S budget =>
      r <- http.Head u ;;
      match r with
      | Err err =>
          t <- time.Now ;;
          if time.After t until then fail (stackerr.wrapped err)
          else time.Sleep infoCheckSleep ;;; infoCheck_loop budget u until
      | OK res => http.BodyClose res
      end
  end.

Definition infoCheck (budget : nat) (tag : string) : M unit :=
  docker <- theDocker ;;
  let containerName := containerNameForTag tag in
  ci <- orWrap (dockerclient.InspectContainer docker containerName) ;;
  let u := "http://" +:+ IpAddress ci +:+ ":" +:+ pretty rellPort +:+ "/info/" in
  t <- time.Now ;;
  let until := t + infoCheckMaxWait in
  infoCheck_loop budget u until.

(** The body of the [for ... range containers] loop of [killExcept], on
    the containers still to visit. *)
Fixpoint killExcept_loop (docker : DockerClient) (tag : string)
    (containers : list Container) (errs : list error) : M (list error) :=
  match containers with
  | [] => ret errs
  | c :: rest =>
      (* check if its our container *)
      if negb (GoString.HasPrefix (Image c) (rellImage +:+ ":"))
      then killExcept_loop docker tag rest errs
      else
        cTag <- orPanic (tagFromNames (Names c)) ;;
        spew.Dump (DumpNames (Names c)) ;;;
        spew.Dump (DumpString cTag) ;;;
        (* dont kill the production container *)
        if String.eqb cTag tag then killExcept_loop docker tag rest errs
        else
          (* remove nginx config file *)
          let cName := containerNameForTag cTag in
          os.Remove (containerNginxConfPath cName) ;;;
          (* stop it, ignoring errors *)
          dockerclient.StopContainer docker (Id c) (time.Seconds stopTimeout) ;;;
          (* remove it *)
          r <- dockerclient.RemoveContainer docker (Id c) ;;
          killExcept_loop docker tag rest
            (match r with Err err => errs ++ [err] | OK _ => errs end)
  end.

Definition killExcept (tag : string) : M unit :=
  docker <- theDocker ;;
  containers <- orWrap (dockerclient.ListContainers docker true) ;;
  errs <- killExcept_loop docker tag containers [] ;;
  match errs with
  | [] => ret tt
  | [e] => fail (stackerr.wrapped e)
  | _ => fail (stackerr.wrapped (multiError errs))
  end.

Definition DeployTag (budget : nat) (tag : string) (prod : bool) : M unit :=
  startRedis ;;;
  startRell tag ;;;
  genTagNginxConf tag ;;;
  infoCheck budget tag ;;;
  (if prod then switchProd tag else ret tt) ;;;
  hupNginx ;;;
  (if prod then killExcept tag else ret tt).


(** ** Vocabulary of the properties *)

(** The file (or directory) a call acts on. *)
Definition file_of (c : Call) : option string :=
  match c with
  | os_Create n | Template_Execute _ n _ | fmt_Fprint n _ | File_Close n
  | os_Remove n | ioutil_ReadFile n => Some n
  | os_MkdirAll p _ => Some p
  | _ => None
  end.

Definition touches (path : string) (e : Event) : Prop :=
  file_of (ev_call e) = Some path.

(** The events of [s'] that came after those of [s]. *)
Definition since (s s' : State) : list Event :=
  drop (length (trace (world s))) (trace (world s')).

Definition is_create (c : Call) : bool :=
  match c with docker_CreateContainer _ _ => true | _ => false end.
Definition is_start (c : Call) : bool :=
  match c with docker_StartContainer _ _ => true | _ => false end.
Definition is_remove (c : Call) : bool :=
  match c with docker_RemoveContainer _ => true | _ => false end.
Definition is_new_client (c : Call) : bool :=
  match c with docker_NewDockerClient _ => true | _ => false end.

Definition count_calls (p : Call → bool) (evs : list Event) : nat :=
  length (List.filter (λ e, p (ev_call e)) evs).

(** ** Example worlds *)

Module Sample.

(** An environment in which nothing fails: requests take a millisecond,
    a new container is named after its name, every started container
    gets the same address. *)
Definition calm : list Event → Call → Reply := λ _ c,
  {| r_err := None; r_took := time.Millisecond; r_part := 0;
     r_text := match c with
               | docker_CreateContainer _ name => "id-" +:+ name
               | _ => "172.17.0.2"
               end |}.

(** The environment that refuses the calls [bad] and is [calm]
    otherwise. *)
Definition refusing (bad : Call → bool) : list Event → Call → Reply :=
  λ tr c,
  {| r_err := if bad c then Some "refused" else None;
     r_took := r_took (calm tr c); r_part := 7;
     r_text := r_text (calm tr c) |}.

Definition deploy : Deploy :=
  {| DockerURL := "unix:///var/run/docker.sock";
     ServerSuffix := "minetti.fbrell.com";
     CertFile := "/etc/nginx/cert/star-minetti-cert.pem";
     KeyFile := "/etc/nginx/cert/star-minetti-key.pem";
     client := None; clientErr := None; clientOnce := false |}.

Definition rell (tag id : string) (up : bool) : Container :=
  {| Id := id; Names := ["/rell-" +:+ tag]; Image := "daaku/rell:" +:+ tag;
     Running := up; IpAddress := if up then "172.17.0.9" else "" |}.

Definition redis : Container :=
  {| Id := "4e1d"; Names := ["/redis"; "/rell-v41/redis"];
     Image := "daaku/redis"; Running := true; IpAddress := "172.17.0.1" |}.

Definition disk : gmap string string :=
  {[ "/run/nginx.pid" := "4711
";
     "/etc/conf.d/rell" := "FB_APP_ID=1

 EMPCHECK=off 
";
     "/etc/nginx/server/rell-prod.conf" := "production";
     "/var/lib/rell/production-tag" := "v41";
     "/etc/nginx/server/rell-v41.conf" := "upstream v41" ]}.

Definition state (cs : list Container) (env : list Event → Call → Reply)
  : State :=
  {| dep := deploy;
     world := {| containers := cs; files := disk; now := 0; trace := [];
                 stdout := []; oracle := env |} |}.

(** v41 is in production, nothing else is deployed. *)
Definition v41_live : list Container := [redis; rell "v41" "a41" true].

(** Both containers exist and are stopped. *)
Definition stopped : list Container :=
  [set_running false "" redis; rell "v42" "b42" false].

(** Three superseded releases beside the current one. *)
Definition crowded : list Container :=
  [redis; rell "v39" "a39" false; rell "v40" "a40" true;
   rell "v41" "a41" true; rell "v42" "a42" true].

(** Removing the container [id] is refused. *)
Definition sticky (id : string) (c : Call) : bool :=
  match c with
  | docker_RemoveContainer x => String.eqb x id
  | _ => false
  end.

(** A release container no name of which carries the prefix. *)
Definition unnamed : Container :=
  {| Id := "c0de"; Names := ["/web"; "/proxy/web"];
     Image := "daaku/rell:v40"; Running := true; IpAddress := "172.17.0.7" |}.

(** A release container with an empty name after its own. *)
Definition trailing : Container :=
  {| Id := "a42"; Names := ["/rell-v42"; ""];
     Image := "daaku/rell:v42"; Running := true; IpAddress := "172.17.0.9" |}.

Definition is_close (c : Call) : bool :=
  match c with File_Close _ => true | _ => false end.
Definition is_execute (c : Call) : bool :=
  match c with Template_Execute _ _ _ => true | _ => false end.

(** The environment in which a request takes [took] and all else is
    [calm]. *)
Definition sluggish (took : Z) : list Event → Call → Reply := λ tr c,
  {| r_err := None;
     r_took := match c with http_Head _ => took | _ => r_took (calm tr c) end;
     r_part := 0; r_text := r_text (calm tr c) |}.

Definition is_head (c : Call) : bool :=
  match c with http_Head _ => true | _ => false end.

(** The environment in which the first [n] requests are refused, each
    after [took], and all else is [calm]. *)
Definition warming (n : nat) (took : Z) : list Event → Call → Reply :=
  λ tr c,
  {| r_err := if is_head c && (count_calls is_head tr <? n)%nat
              then Some "connection refused" else None;
     r_took := match c with http_Head _ => took | _ => r_took (calm tr c) end;
     r_part := 0; r_text := r_text (calm tr c) |}.

(** A release container whose name leads, through a parent directory,
    to the config file of the tag v41. *)
Definition detour : Container :=
  {| Id := "d370"; Names := ["/rell-q/../rell-v41"];
     Image := "daaku/rell:q"; Running := true; IpAddress := "172.17.0.8" |}.

End Sample.

(** ** Vocabulary for the container manager *)

(** The client is constructed, without error. *)
Definition ready (c : DockerClient) (d : Deploy) : Prop :=
  clientOnce d = true ∧ client d = Some c ∧ clientErr d = None.

(** Whether the daemon holds a running container under [name]. *)
Definition running_under (name : string) (s : State) : bool :=
  match find (refers name) (containers (world s)) with
  | Some ci => Running ci
  | None => false
  end.

Definition created_config (evs : list Event) : ContainerConfig :=
  default {| cfg_User := ""; cfg_Image := ""; cfg_Env := [] |}
    (head (omap (λ e, match ev_call e with
                      | docker_CreateContainer cfg _ => Some cfg
                      | _ => None
                      end) evs)).

Definition started_id (evs : list Event) : string :=
  default ""
    (head (omap (λ e, match ev_call e with
                      | docker_StartContainer id _ => Some id
                      | _ => None
                      end) evs)).

Definition started_config (evs : list Event) : HostConfig :=
  default {| hc_Binds := []; hc_Links := [] |}
    (head (omap (λ e, match ev_call e with
                      | docker_StartContainer _ hc => Some hc
                      | _ => None
                      end) evs)).

(** What a run [out] of [startRedis] or [startRell] did after the client
    was there in [s1], when it found the container [name] stopped: the
    inspection, then a non-empty beginning of: remove [name], the calls
    [middle], create [name] from [image], start what was created with
    [hc].  Each call is made only after the one before it succeeded, and
    a call that succeeded is followed by the next one: the calls end
    with the first that fails, whose error the run returns wrapped, or
    with the start, which is of the identifier the daemon returned for
    the create.  The run succeeds exactly when all of them were made
    and succeeded, and then the container found under [name] is the one
    created, running. *)
Definition replaces_stale (out : Res unit * State) (s1 : State)
    (name : string) (middle : list Call) (image : string) (hc : HostConfig)
  : Prop :=
  ∃ evs cfg id,
    trace (world (snd out))
    = trace (world s1)
      ++ {| ev_call := docker_InspectContainer name; ev_err := None;
            ev_at := now (world s1) |} :: evs
    ∧ evs ≠ []
    ∧ map ev_call evs `prefix_of`
        (docker_RemoveContainer name
         :: middle ++ [docker_CreateContainer cfg name;
                       docker_StartContainer id hc])
    ∧ (∀ i e, evs !! i = Some e → (S i < length evs)%nat → ev_err e = None)
    ∧ (∀ e, last evs = Some e →
            match ev_err e with
            | None => length evs = (3 + length middle)%nat
            | Some err => fst out = Fail (stackerr.wrapped err)
            end)
    ∧ (length evs = (3 + length middle)%nat →
       id = r_text (oracle (world s1)
                      (trace (world s1)
                       ++ {| ev_call := docker_InspectContainer name;
                             ev_err := None; ev_at := now (world s1) |}
                          :: take (1 + length middle) evs)
                      (docker_CreateContainer cfg name)))
    ∧ (fst out = Done tt
       ↔ length evs = (3 + length middle)%nat
         ∧ ∀ e, e ∈ evs → ev_err e = None)
    ∧ (fst out = Done tt →
       cfg_Image cfg = image
       ∧ ∃ new, find (refers name) (containers (world (snd out))) = Some new
                ∧ Id new = id ∧ Running new = true
                ∧ Image new = image).

(** ** Vocabulary for the cleanup sweep *)

(** The container runs an image of the release family. *)
Definition release (c : Container) : bool :=
  GoString.HasPrefix (Image c) (rellImage +:+ ":").

(** The tag [killExcept] derives for a container. *)
Definition tag_of (c : Container) : string :=
  default "" (tagFromNames (Names c)).

(** The containers [killExcept tag] retires: release containers whose
    derived tag is not [tag]. *)
Definition swept (tag : string) (c : Container) : bool :=
  release c && negb (String.eqb (tag_of c) tag).

(** The containers [killExcept tag] skips because they carry [tag]. *)
Definition current (tag : string) (c : Container) : bool :=
  release c && String.eqb (tag_of c) tag.

(** Deriving the tag of a release container does not panic. *)
Definition names_ok (c : Container) : Prop :=
  release c = true → is_Some (tagFromNames (Names c)).

Definition conf_of (c : Container) : string :=
  containerNginxConfPath (containerNameForTag (tag_of c)).

(** The calls of one turn of the loop on a retired container. *)
Definition sweep_calls (c : Container) : list Call :=
  [os_Remove (conf_of c); docker_StopContainer (Id c) 30;
   docker_RemoveContainer (Id c)].

(** The errors of the removals among [evs], in order. *)
Definition removal_errors (evs : list Event) : list error :=
  omap (λ e, if is_remove (ev_call e) then ev_err e else None) evs.

(** The errors the daemon or the environment hands out. *)
Definition plain (e : error) : Prop :=
  e = ErrNotFound ∨ ∃ msg, e = ErrOther msg.

(** The name after its first byte carries the release prefix. *)
Definition carries (name : string) : bool :=
  match GoString.slice_from 1 name with
  | Some rest => GoString.HasPrefix rest rellContainerNamePrefix
  | None => false
  end.

(** Identifiers are unique and are not used as names. *)
Definition distinct_ids (cs : list Container) : Prop :=
  NoDup (map Id cs)
  ∧ Forall (λ x, Forall (λ y, ("/" +:+ Id x) ∉ Names y) cs) cs.

(** The call deletes the file [conf] or stops or removes the container
    [id]. *)
Definition aims_at (conf id : string) (c : Call) : bool :=
  match c with
  | os_Remove p => String.eqb p conf
  | docker_StopContainer i _ | docker_RemoveContainer i => String.eqb i id
  | _ => false
  end.

(** The retired container [c] is apart from [x]: the daemon does not
    resolve the identifier of [c] to [x], and the config file derived
    for [c] is not the one derived for [x]. *)
Definition apart (x c : Container) : Prop :=
  refers (Id c) x = false ∧ conf_of c ≠ conf_of x.

(** What [spew.Dump] leaves of a state: everything but the output. *)
Definition dumped (v : Dumped) (s : State) : State := snd (spew.Dump v s).

(** One turn of the loop of [killExcept] on a retired container: the
    three calls are made whatever each of them returns. *)
Definition sweep_one (docker : DockerClient) (c : Container)
  : M (result unit) :=
  bind (os.Remove (conf_of c)) (λ _,
  bind (dockerclient.StopContainer docker (Id c) 30) (λ _,
  dockerclient.RemoveContainer docker (Id c))).

(** What [killExcept tag] does from [s1] on (client at hand) when the
    listing succeeds: the three calls on every retired container in
    order, and a result decided by the errors of the removals alone. *)
Definition sweeps_and_aggregates (tag : string) (out : Res unit * State)
    (s1 : State) : Prop :=
  ∃ evs,
    let errs := removal_errors evs in
    trace (world (snd out))
    = trace (world s1)
      ++ {| ev_call := docker_ListContainers true; ev_err := None;
            ev_at := now (world s1) |} :: evs
    ∧ map ev_call evs
      = flat_map sweep_calls (List.filter (swept tag) (containers (world s1)))
    ∧ (fst out = Done tt ↔ length errs = 0%nat)
    ∧ ((∃ e, errs = [e] ∧ fst out = Fail (StackErr e)) ↔ length errs = 1%nat)
    ∧ (fst out = Fail (StackErr (multiError errs)) ↔ (1 < length errs)%nat).

(** A name the scan of [tagFromNames] passes over: not empty, and
    without the release prefix after its first byte. *)
Definition passed_over (name : string) : Prop :=
  name ≠ "" ∧ carries name = false.

(** ** Vocabulary for the client of a [Deploy] *)

(** How often the client was constructed so far. *)
Definition constructions (s : State) : nat :=
  count_calls is_new_client (trace (world s)).

(** The constructions the [sync.Once] of the [Deploy] still allows. *)
Definition pending (s : State) : nat :=
  if clientOnce (dep s) then 0%nat else 1%nat.

(** The methods of [Deploy]. *)
Inductive Method : Type :=
| m_docker
| m_startRedis
| m_startRell (tag : string)
| m_rellEnv
| m_genTagNginxConf (tag : string)
| m_switchProd (tag : string)
| m_hupNginx
| m_infoCheck (tag : string)
| m_killExcept (tag : string)
| m_DeployTag (tag : string) (prod : bool).

Definition invoke (budget : nat) (m : Method) : M unit :=
  match m with
  | m_docker => bind docker (λ _, ret tt)
  | m_startRedis => startRedis
  | m_startRell tag => startRell tag
  | m_rellEnv => bind rellEnv (λ _, ret tt)
  | m_genTagNginxConf tag => genTagNginxConf tag
  | m_switchProd tag => switchProd tag
  | m_hupNginx => hupNginx
  | m_infoCheck tag => infoCheck budget tag
  | m_killExcept tag => killExcept tag
  | m_DeployTag tag prod => DeployTag budget tag prod
  end.

(** A caller invoking methods one after the other, whatever each of
    them returns. *)
Definition invoke_all (budget : nat) (ms : list Method) (s : State) : State :=
  fold_left (λ st m, snd (invoke budget m st)) ms s.

(** A computation that constructs the client only through the
    [sync.Once] and leaves a constructed [Deploy] as it is. *)
Definition keeps_client {A} (m : M A) : Prop :=
  ∀ s, (constructions (snd (m s)) + pending (snd (m s))
        = constructions s + pending s)%nat
       ∧ (clientOnce (dep s) = true → dep (snd (m s)) = dep s).

(** ** Vocabulary for the readiness poll *)

(** A request to [u] that failed and was over by [until]. *)
Definition failed_by (u : string) (until : Z) (e : Event) : bool :=
  match ev_call e, ev_err e with
  | http_Head u', Some _ => String.eqb u' u && (ev_at e <=? until)
  | _, _ => false
  end.

(** A request to [u] that succeeded and was over by [until]. *)
Definition succeeded_by (u : string) (until : Z) (e : Event) : bool :=
  match ev_call e, ev_err e with
  | http_Head u', None => String.eqb u' u && (ev_at e <=? until)
  | _, _ => false
  end.

(** The sleep of one poll interval that began at [t]. *)
Definition nap_from (t : Z) (e : Event) : bool :=
  match ev_call e, ev_err e with
  | time_Sleep d, None => (d =? infoCheckSleep) && (ev_at e =? t + infoCheckSleep)
  | _, _ => false
  end.

(** Rounds of the poll that did not end it: a request that failed by the
    deadline, then the sleep. *)
Fixpoint rounds (u : string) (until : Z) (evs : list Event) : bool :=
  match evs with
  | [] => true
  | probe :: nap :: rest =>
      failed_by u until probe && nap_from (ev_at probe) nap
      && rounds u until rest
  | _ => false
  end.

(** What a run [out] of the poll of [u] with deadline [until] from [s]
    did: rounds that did not end it, then one last request, which began
    no later than one poll interval after the deadline.  If the last
    request succeeded the body was closed and the poll succeeded; if it
    failed it was over after the deadline, and the poll failed with its
    error. *)
Definition polled (u : string) (until : Z) (s : State)
    (out : Res unit * State) : Prop :=
  let s' := snd out in
  ∃ (retries : list Event) (last : Event),
    rounds u until retries = true
    ∧ ev_call last = http_Head u
    ∧ now (world s') = ev_at last
    ∧ ev_at last
      ≤ until + infoCheckSleep
        + r_took (oracle (world s) (trace (world s) ++ retries) (http_Head u))
    ∧ match ev_err last with
      | None =>
          fst out = Done tt
          ∧ ∃ closed, ev_call closed = Body_Close u
              ∧ trace (world s')
                = trace (world s) ++ retries ++ [last; closed]
      | Some err =>
          fst out = Fail (stackerr.wrapped err)
          ∧ until < ev_at last
          ∧ trace (world s') = trace (world s) ++ retries ++ [last]
      end.

(** ** Vocabulary for a deploy *)

(** Running [steps] in order; the first that does not return normally
    ends the run with its own outcome. *)
Fixpoint run_steps (steps : list (M unit)) : M unit :=
  match steps with
  | [] => ret tt
  | step :: rest => λ s,
      match step s with
      | (Done _, s') => run_steps rest s'
      | out => out
      end
  end.

(** The states a run of [steps] goes through while they return
    normally. *)
Fixpoint passed (steps : list (M unit)) (s : State) : option State :=
  match steps with
  | [] => Some s
  | step :: rest =>
      match step s with
      | (Done _, s') => passed rest s'
      | _ => None
      end
  end.

(** The steps of a deploy: cache, release, its config, readiness,
    promotion if asked for, reload, cleanup if promoted. *)
Definition deploy_steps (budget : nat) (tag : string) (prod : bool)
  : list (M unit) :=
  [startRedis; startRell tag; genTagNginxConf tag; infoCheck budget tag]
  ++ (if prod then [switchProd tag] else [])
  ++ [hupNginx]
  ++ (if prod then [killExcept tag] else []).

(** The call changes the content of the file [path], or deletes it. *)
Definition writes (path : string) (c : Call) : bool :=
  match c with
  | os_Create n | Template_Execute _ n _ | fmt_Fprint n _ | os_Remove n =>
      String.eqb n path
  | _ => false
  end.

(** The call starts, stops or removes the container [x]. *)
Definition acts_on (x : Container) (c : Call) : bool :=
  match c with
  | docker_StartContainer ref _ | docker_StopContainer ref _
  | docker_RemoveContainer ref => refers ref x
  | _ => false
  end.

(** A computation all of whose calls are [allowed]; it leaves alone the
    files none of its calls writes and the containers none of its calls
    acts on. *)
Definition confined (allowed : Call → bool) {A} (m : M A) : Prop :=
  ∀ s, ∃ evs,
    trace (world (snd (m s))) = trace (world s) ++ evs
    ∧ Forall (λ e, allowed (ev_call e) = true) evs
    ∧ (∀ p, Forall (λ e, writes p (ev_call e) = false) evs →
            files (world (snd (m s))) !! p = files (world s) !! p)
    ∧ (∀ x, Forall (λ e, acts_on x (ev_call e) = false) evs →
            x ∈ containers (world s) → x ∈ containers (world (snd (m s)))).

(** The calls of a deploy of [tag] that is not promoted. *)
Definition unpromoted (tag : string) (c : Call) : bool :=
  let conf := containerNginxConfPath (containerNameForTag tag) in
  match c with
  | docker_StopContainer _ _ | docker_ListContainers _ | os_MkdirAll _ _
  | fmt_Fprint _ _ => false
  | docker_InspectContainer ref | docker_RemoveContainer ref
  | docker_CreateContainer _ ref =>
      String.eqb ref redisContainerName
      || String.eqb ref (containerNameForTag tag)
  | os_Create n | os_Remove n | Template_Execute _ n _ | File_Close n =>
      String.eqb n conf
  | ioutil_ReadFile n => String.eqb n rellEnvFile || String.eqb n nginxPidFile
  | _ => true
  end.


(** * Properties *)

(** ** Reading a state after a call *)

Section Projections.
Context (s : State) (c : Call) (e : option error)
  (cs : list Container) (fs : gmap string string) (t : Z).

Lemma trace_after : trace (world (after s c e cs fs t))
  = trace (world s) ++ [{| ev_call := c; ev_err := e; ev_at := t |}].
Proof. reflexivity. Qed.
Lemma containers_after : containers (world (after s c e cs fs t)) = cs.
Proof. reflexivity. Qed.
Lemma files_after : files (world (after s c e cs fs t)) = fs.
Proof. reflexivity. Qed.
Lemma now_after : now (world (after s c e cs fs t)) = t.
Proof. reflexivity. Qed.
Lemma oracle_after : oracle (world (after s c e cs fs t)) = oracle (world s).
Proof. reflexivity. Qed.
Lemma stdout_after : stdout (world (after s c e cs fs t)) = stdout (world s).
Proof. reflexivity. Qed.
Lemma dep_after : dep (after s c e cs fs t) = dep s.
Proof. reflexivity. Qed.

Lemma trace_logged : trace (world (logged s c e))
  = trace (world s) ++ [{| ev_call := c; ev_err := e; ev_at := now (world s) |}].
Proof. reflexivity. Qed.
Lemma containers_logged : containers (world (logged s c e)) = containers (world s).
Proof. reflexivity. Qed.
Lemma files_logged : files (world (logged s c e)) = files (world s).
Proof. reflexivity. Qed.
Lemma now_logged : now (world (logged s c e)) = now (world s).
Proof. reflexivity. Qed.
Lemma oracle_logged : oracle (world (logged s c e)) = oracle (world s).
Proof. reflexivity. Qed.
Lemma stdout_logged : stdout (world (logged s c e)) = stdout (world s).
Proof. reflexivity. Qed.
Lemma dep_logged : dep (logged s c e) = dep s.
Proof. reflexivity. Qed.
End Projections.

Create Rewrite HintDb world.
#[global] Hint Rewrite trace_after containers_after files_after now_after
  oracle_after stdout_after dep_after trace_logged containers_logged
  files_logged now_logged oracle_logged stdout_logged dep_logged : world.

Arguments after : simpl never.
Arguments logged : simpl never.

(** Unfolds the monad and the operations of the world, leaving the
    states as nested [after] and [logged]. *)
Ltac unfold_ops :=
  cbv [bind orWrap orPanic ret fail panic spin refused
       os.Create os.write os.Close os.Remove os.MkdirAll os.FindProcess
       os.Signal ioutil.ReadFile fmt.Fprint http.Head http.BodyClose
       time.Now time.Sleep
       dockerclient.InspectContainer dockerclient.CreateContainer
       dockerclient.StartContainer dockerclient.StopContainer
       dockerclient.RemoveContainer dockerclient.ListContainers].

Ltac unfold_ops_in H :=
  cbv [bind orWrap orPanic ret fail panic spin refused
       os.Create os.write os.Close os.Remove os.MkdirAll os.FindProcess
       os.Signal ioutil.ReadFile fmt.Fprint http.Head http.BodyClose
       time.Now time.Sleep
       dockerclient.InspectContainer dockerclient.CreateContainer
       dockerclient.StartContainer dockerclient.StopContainer
       dockerclient.RemoveContainer dockerclient.ListContainers] in H.

(** Splits on the next answer of the environment in the run [H]. *)
Ltac answer_in H :=
  match type of H with
  | context [match r_err (ask ?c ?s) with _ => _ end] =>
      let Hask := fresh "Hask" in
      destruct (r_err (ask c s)) eqn:Hask; cbv beta iota zeta in H
  end.

(** Splits on the next answer of the environment. *)
Ltac answer :=
  match goal with
  | |- context [match r_err (ask ?c ?s) with _ => _ end] =>
      let H := fresh "Hask" in
      destruct (r_err (ask c s)) eqn:H; cbv beta iota zeta
  end.

Ltac tidy :=
  cbn [fst snd]; autorewrite with world; rewrite <- ?app_assoc; cbn [app].

(** One step of a run [H]: splits on what the next call meets. *)
Ltac step_in H :=
  autorewrite with world in H;
  match type of H with
  | context [match r_err (ask ?c ?s) with _ => _ end] =>
      let Hask := fresh "Hask" in destruct (r_err (ask c s)) eqn:Hask
  | context [match lookup ?k ?m with _ => _ end] =>
      let Hfile := fresh "Hfile" in destruct (lookup k m) eqn:Hfile
  | context [if existsb ?p ?l then _ else _] =>
      let Hex := fresh "Hex" in destruct (existsb p l) eqn:Hex
  | context [match find ?p ?l with _ => _ end] =>
      let Hfind := fresh "Hfind" in destruct (find p l) eqn:Hfind
  | context [if Running ?c then _ else _] =>
      let Hrun := fresh "Hrun" in destruct (Running c) eqn:Hrun
  end;
  cbv beta iota zeta in H; cbn [negb is_ErrNotFound] in H.


(** ** switchProd *)

Lemma prod_path :
  filepath.Join nginxConfDir prodNginxConfFile = "/etc/nginx/server/rell-prod.conf".
Proof. reflexivity. Qed.

Lemma Dir_tag : filepath.Dir lastDeployTagFile = "/var/lib/rell".
Proof. reflexivity. Qed.

Ltac split_trace n :=
  match goal with
  | |- ∃ pre post, _ ++ ?l = _ ++ pre ++ post ∧ _ =>
      exists (take n l), (drop n l); cbn [take drop]
  end.

Ltac no_touch :=
  repeat (first [apply Forall_nil_2 | apply Forall_cons_2]);
  cbv [touches file_of ev_call]; try discriminate.

Ltac map_lookups :=
  repeat first
    [ rewrite lookup_insert_eq
    | rewrite lookup_insert_ne by discriminate
    | rewrite lookup_delete_ne by discriminate ];
  cbn [default].

Ltac members H :=
  repeat (apply elem_of_cons in H as [-> | H]); [.. | by apply elem_of_nil in H].

(** The environment answers every call without an error, which the
    refused call [H] of this run contradicts. *)
Ltac never_refused Hcalm :=
  exfalso;
  match goal with
  | H : r_err (ask _ _) = Some _ |- _ =>
      unfold ask in H; autorewrite with world in H;
      rewrite Hcalm in H; discriminate H
  end.

Ltac switchProd_path :=
  split; [reflexivity |];
  split; [eexists _, _; split; reflexivity |];
  split; [no_touch |];
  split; [no_touch |];
  split;
  [ first [ by intros []
          | intros _; split; [reflexivity | by repeat constructor] ] |];
  split;
  [ intros (e & Hin & _ & Herr);
    first [ split; [reflexivity | by map_lookups]
          | exfalso; members Hin; by apply Herr ] |];
  split;
  [ first [ by intros [=]
          | intros _; split; by map_lookups ] |];
  let Hcalm := fresh "Hcalm" in
  intros Hcalm;
  first [ never_refused Hcalm
        | split; [reflexivity |]; split; reflexivity ].

(** C4. [switchProd] writes the production config before it touches the
    last-deploy-tag file.  The calls it makes split into a first part,
    which begins with the creation of the production config and never
    touches the tag file, and a second part, which never touches the
    production config; the second part is not empty only after the
    production config was created, rendered and closed without an error.
    When creating, rendering or closing the production config fails, the
    second part is empty and the tag file is as it was.  When
    [switchProd] succeeds the tag file holds exactly the tag and the
    production config is the template rendered with the container name
    of the tag as backend; and it does succeed, with the seven calls in
    this order, whenever the environment fails none of its calls. *)
Theorem switchProd_config_before_tag (tag : string) (s : State) :
  let P := filepath.Join nginxConfDir prodNginxConfFile in
  let text :=
    prodNginxConf
      {| prod_ServerSuffix := ServerSuffix (dep s);
         prod_BackendName := containerNameForTag tag;
         prod_CertFile := CertFile (dep s);
         prod_KeyFile := KeyFile (dep s) |} in
  let s' := snd (switchProd tag s) in
  ∃ pre post,
    trace (world s') = trace (world s) ++ pre ++ post
    ∧ (∃ first rest, pre = first :: rest ∧ ev_call first = os_Create P)
    ∧ Forall (λ e, ¬ touches lastDeployTagFile e) pre
    ∧ Forall (λ e, ¬ touches P e) post
    ∧ (post ≠ [] →
       map ev_call pre
       = [os_Create P; Template_Execute "prod" P text; File_Close P]
       ∧ Forall (λ e, ev_err e = None) pre)
    ∧ ((∃ e, e ∈ pre ∧ touches P e ∧ ev_err e ≠ None) →
       post = []
       ∧ files (world s') !! lastDeployTagFile
         = files (world s) !! lastDeployTagFile)
    ∧ (fst (switchProd tag s) = Done tt →
       files (world s') !! lastDeployTagFile = Some tag
       ∧ files (world s') !! P = Some text)
    ∧ ((∀ tr c, r_err (oracle (world s) tr c) = None) →
       fst (switchProd tag s) = Done tt
       ∧ map ev_call pre
         = [os_Create P; Template_Execute "prod" P text; File_Close P]
       ∧ map ev_call post
         = [os_MkdirAll (filepath.Dir lastDeployTagFile) 493;
            os_Create lastDeployTagFile; fmt_Fprint lastDeployTagFile tag;
            File_Close lastDeployTagFile]).
Proof.
  cbv zeta. rewrite prod_path, Dir_tag.
  remember (switchProd tag s) as out eqn:Hout.
  unfold switchProd in Hout. rewrite prod_path, Dir_tag in Hout.
  unfold_ops_in Hout.
  step_in Hout; [| set (text := prodNginxConf _) in *; clearbody text ];
    repeat step_in Hout.
  all: subst out; tidy.
  all: first [ split_trace 3%nat; switchProd_path
             | split_trace 4%nat; switchProd_path ].
Qed.

(** With nothing failing, as in this sample, [switchProd] makes its
    seven calls and leaves both files written. *)
Lemma switchProd_config_before_tag_witness :
  let s := Sample.state Sample.v41_live Sample.calm in
  let s' := snd (switchProd "v42" s) in
  fst (switchProd "v42" s) = Done tt
  ∧ map ev_call (since s s')
    = [os_Create "/etc/nginx/server/rell-prod.conf";
       Template_Execute "prod" "/etc/nginx/server/rell-prod.conf"
         (prodNginxConf
            {| prod_ServerSuffix := "minetti.fbrell.com";
               prod_BackendName := "rell-v42";
               prod_CertFile := "/etc/nginx/cert/star-minetti-cert.pem";
               prod_KeyFile := "/etc/nginx/cert/star-minetti-key.pem" |});
       File_Close "/etc/nginx/server/rell-prod.conf";
       os_MkdirAll "/var/lib/rell" 493;
       os_Create "/var/lib/rell/production-tag";
       fmt_Fprint "/var/lib/rell/production-tag" "v42";
       File_Close "/var/lib/rell/production-tag"]
  ∧ files (world s') !! "/var/lib/rell/production-tag" = Some "v42".
Proof.
  intros s s'.
  destruct (switchProd_config_before_tag "v42" s)
    as (pre & post & Htrace & _ & _ & _ & _ & _ & Hfiles & Hcalm).
  destruct Hcalm as (Hdone & Hpre & Hpost); [reflexivity |].
  split; [exact Hdone |]. split.
  - fold s' in Htrace. unfold since. rewrite Htrace, drop_app_length.
    rewrite map_app, Hpre, Hpost. reflexivity.
  - by destruct (Hfiles Hdone) as [Htag _].
Defined.


(** ** genTagNginxConf *)

Lemma tag_path_v42 :
  containerNginxConfPath (containerNameForTag "v42")
  = "/etc/nginx/server/rell-v42.conf".
Proof. reflexivity. Qed.

(** When rendering fails the file is closed and removed (the sibling
    path of the one C5 is about). *)
Example genTagNginxConf_render_failure_removes :
  let s := Sample.state [Sample.rell "v42" "a42" true]
             (Sample.refusing Sample.is_execute) in
  let out := genTagNginxConf "v42" s in
  fst out = Fail (StackErr (ErrOther "refused"))
  ∧ files (world (snd out)) !! "/etc/nginx/server/rell-v42.conf" = None.
Proof. vm_compute. split; reflexivity. Qed.

(** C5. The claim fails when [f.Close()] fails: [genTagNginxConf]
    returns the error and the file it created is still there. *)
Theorem genTagNginxConf_close_failure_leaves_file :
  let s := Sample.state [Sample.rell "v42" "a42" true]
             (Sample.refusing Sample.is_close) in
  let out := genTagNginxConf "v42" s in
  files (world s) !! "/etc/nginx/server/rell-v42.conf" = None
  ∧ fst out = Fail (StackErr (ErrOther "refused"))
  ∧ is_Some (files (world (snd out)) !! "/etc/nginx/server/rell-v42.conf")
  ∧ map ev_call (since s (snd out))
    = [ docker_NewDockerClient "unix:///var/run/docker.sock";
        docker_InspectContainer "rell-v42";
        os_Create "/etc/nginx/server/rell-v42.conf";
        Template_Execute "tag" "/etc/nginx/server/rell-v42.conf"
          (tagNginxConf
             {| tag_BackendName := "rell-v42";
                tag_ServerName := "v42.minetti.fbrell.com";
                tag_IpAddress := "172.17.0.9";
                tag_Port := 43600;
                tag_CertFile := "/etc/nginx/cert/star-minetti-cert.pem";
                tag_KeyFile := "/etc/nginx/cert/star-minetti-key.pem" |});
        File_Close "/etc/nginx/server/rell-v42.conf" ].
Proof.
  cbv zeta. repeat split; try (vm_compute; reflexivity).
  vm_compute. eexists. reflexivity.
Qed.


(** ** The docker client of a [Deploy] *)

Lemma theDocker_ready s c : ready c (dep s) → theDocker s = (Done c, s).
Proof.
  intros (Hon & Hc & He). unfold theDocker, docker, bind, ret.
  rewrite Hon, Hc, He. reflexivity.
Qed.

Lemma theDocker_Done s c s1 :
  theDocker s = (Done c, s1) →
  ready c (dep s1)
  ∧ containers (world s1) = containers (world s)
  ∧ files (world s1) = files (world s)
  ∧ now (world s1) = now (world s)
  ∧ oracle (world s1) = oracle (world s).
Proof.
  unfold theDocker, docker, bind, ret, fail, panic,
    dockerclient.NewDockerClient, refused, ready.
  destruct (clientOnce (dep s)) eqn:Hon.
  - destruct (client (dep s)) eqn:Hc, (clientErr (dep s)) eqn:He;
      cbn; intros [=]; subst; auto.
  - destruct (r_err _); cbn; intros [=]; subst; auto.
Qed.

Lemma theDocker_trace s c s1 :
  theDocker s = (Done c, s1) →
  trace (world s1) = trace (world s)
  ∨ trace (world s1)
    = trace (world s)
      ++ [{| ev_call := docker_NewDockerClient (DockerURL (dep s));
             ev_err := None; ev_at := now (world s) |}].
Proof.
  unfold theDocker, docker, bind, ret, fail, panic,
    dockerclient.NewDockerClient, refused.
  destruct (clientOnce (dep s)) eqn:Hon.
  - destruct (client (dep s)) eqn:Hc, (clientErr (dep s)) eqn:He;
      cbn; intros [=]; subst; auto.
  - destruct (r_err _); cbn; intros [=]; subst; auto.
Qed.

Lemma since_app s s' evs :
  trace (world s') = trace (world s) ++ evs → since s s' = evs.
Proof. intros H. unfold since. rewrite H. apply drop_app_length. Qed.

(** ** Lists of containers *)

Lemma refers_set_running ref b ip x :
  refers ref (set_running b ip x) = refers ref x.
Proof. reflexivity. Qed.

Lemma find_removed ref (cs : list Container) :
  find (refers ref) (filter (λ x, negb (refers ref x)) cs) = None.
Proof.
  induction cs as [|x cs IH]; [reflexivity |].
  rewrite filter_cons. destruct (refers ref x) eqn:Hx; cbn.
  - case_decide as H; [done | exact IH].
  - case_decide as H; [| by destruct H]. cbn. by rewrite Hx.
Qed.

Lemma find_app_None {A} (p : A → bool) l1 l2 :
  find p l1 = None → find p (l1 ++ l2) = find p l2.
Proof.
  induction l1 as [|x l1 IH]; [done |]. cbn. destruct (p x); [done | exact IH].
Qed.

Lemma find_map_same {A} (p : A → bool) (f : A → A) l :
  (∀ x, p (f x) = p x) → find p (map f l) = f <$> find p l.
Proof.
  intros Hf. induction l as [|x l IH]; [done |].
  cbn. rewrite Hf. destruct (p x); [done | exact IH].
Qed.

Lemma find_Some_existsb {A} (p : A → bool) l x :
  find p l = Some x → existsb p l = true.
Proof.
  induction l as [|y l IH]; [done |]. cbn.
  destruct (p y); [done | exact IH].
Qed.

Lemma find_None_existsb {A} (p : A → bool) l :
  find p l = None → existsb p l = false.
Proof.
  induction l as [|y l IH]; [done |]. cbn.
  destruct (p y); [done | exact IH].
Qed.

Lemma refers_own_id x : refers (Id x) x = true.
Proof. unfold refers. by rewrite String.eqb_refl. Qed.

Lemma refers_new_id id names img b ip :
  refers id {| Id := id; Names := names; Image := img;
               Running := b; IpAddress := ip |} = true.
Proof. unfold refers. cbn [Id]. by rewrite String.eqb_refl. Qed.

Lemma refers_own_name ref id img b ip :
  refers ref {| Id := id; Names := ["/" +:+ ref]; Image := img;
                Running := b; IpAddress := ip |} = true.
Proof.
  unfold refers. cbn [Id Names existsb]. rewrite String.eqb_refl.
  by rewrite orb_true_r.
Qed.

Lemma existsb_app_last {A} (p : A → bool) l x :
  p x = true → existsb p (l ++ [x]) = true.
Proof. intros H. rewrite existsb_app. cbn. rewrite H. by rewrite !orb_true_r. Qed.


(** ** startRedis and startRell *)

Ltac stale_witness :=
  match goal with
  | |- ∃ evs cfg id, _ ++ _ :: ?l = _ ∧ _ =>
      exists l, (created_config l), (started_id l)
  end;
  cbn [created_config started_id started_config omap head default ev_call
       list_omap option_bind mbind].

Ltac new_is_there :=
  try (exfalso;
       match goal with
       | H : existsb _ (_ ++ [_]) = false |- _ =>
           rewrite existsb_app_last in H by (apply refers_new_id);
           discriminate
       end).

Ltac all_fine H :=
  apply Forall_forall in H;
  repeat match type of H with
         | Forall _ (_ :: _) => apply Forall_cons in H as [? H]
         end;
  cbn [ev_err] in *; congruence.

Ltac stale_path :=
  split; [reflexivity |];
  split; [discriminate |];
  split; [cbn [map ev_call]; eexists; reflexivity |];
  split;
  [ intros [|[|[|[|i]]]] e He Hlen; cbn [length] in Hlen; try lia;
    cbn in He; injection He as <-; reflexivity |];
  split;
  [ intros e He; cbn [last] in He; injection He as <-; cbn [ev_err];
    reflexivity |];
  split;
  [ first [ by intros [=]
          | intros _; cbn [take length Nat.add]; unfold ask;
            autorewrite with world; rewrite <- ?app_assoc; reflexivity ] |];
  split;
  [ split;
    [ first [ discriminate | intros _; split; [reflexivity |];
              intros e He; members He; reflexivity ]
    | intros [Hl Hall]; first [ reflexivity | discriminate Hl | all_fine Hall ] ]
  | first [ discriminate | intros _ ] ].

Ltac created_found :=
  split; [reflexivity |];
  rewrite find_map_same by (intros x; destruct (refers _ x); reflexivity);
  rewrite find_app_None by apply find_removed;
  cbn [find]; rewrite refers_own_name; cbn [fmap option_fmap option_map];
  eexists; split; [reflexivity |];
  rewrite !refers_new_id; cbn [set_running Id Running Image cfg_Image];
  auto.

Lemma startRell_stale tag s c s1 ci :
  let name := containerNameForTag tag in
  theDocker s = (Done c, s1) →
  r_err (ask (docker_InspectContainer name) s1) = None →
  find (refers name) (containers (world s1)) = Some ci →
  Running ci = false →
  replaces_stale (startRell tag s) s1 name [ioutil_ReadFile rellEnvFile]
    (rellImage +:+ ":" +:+ tag)
    {| hc_Binds := []; hc_Links := [redisContainerLink] |}.
Proof.
  intros name Hd Hi Hf Hr. unfold replaces_stale.
  remember (startRell tag s) as out eqn:Hout.
  unfold startRell, rellEnv in Hout. fold name in Hout.
  unfold_ops_in Hout. rewrite Hd in Hout. cbv beta iota zeta in Hout.
  rewrite Hi, Hf in Hout. cbv beta iota zeta in Hout. rewrite Hr in Hout.
  autorewrite with world in Hout.
  rewrite (find_Some_existsb _ _ _ Hf) in Hout.
  repeat step_in Hout.
  all: new_is_there.
  all: subst out; tidy.
  all: stale_witness.
  all: stale_path.
  created_found.
Qed.

Lemma startRedis_stale s c s1 ci :
  theDocker s = (Done c, s1) →
  r_err (ask (docker_InspectContainer redisContainerName) s1) = None →
  find (refers redisContainerName) (containers (world s1)) = Some ci →
  Running ci = false →
  replaces_stale (startRedis s) s1 redisContainerName [] redisImage
    {| hc_Binds := [redisDataBind]; hc_Links := [] |}.
Proof.
  intros Hd Hi Hf Hr. unfold replaces_stale.
  remember (startRedis s) as out eqn:Hout.
  unfold startRedis in Hout.
  unfold_ops_in Hout. rewrite Hd in Hout. cbv beta iota zeta in Hout.
  rewrite Hi, Hf in Hout. cbv beta iota zeta in Hout. rewrite Hr in Hout.
  autorewrite with world in Hout.
  rewrite (find_Some_existsb _ _ _ Hf) in Hout.
  repeat step_in Hout.
  all: new_is_there.
  all: subst out; tidy.
  all: stale_witness.
  all: stale_path.
  created_found.
Qed.

Lemma startRell_inspect_error tag s c s1 msg :
  let name := containerNameForTag tag in
  theDocker s = (Done c, s1) →
  r_err (ask (docker_InspectContainer name) s1) = Some msg →
  startRell tag s
  = (Fail (StackErr (ErrOther msg)),
     logged s1 (docker_InspectContainer name) (Some (ErrOther msg))).
Proof.
  intros name Hd Hi. unfold startRell. fold name.
  unfold_ops. rewrite Hd. cbv beta iota zeta. rewrite Hi. reflexivity.
Qed.

Lemma startRedis_inspect_error s c s1 msg :
  theDocker s = (Done c, s1) →
  r_err (ask (docker_InspectContainer redisContainerName) s1) = Some msg →
  startRedis s
  = (Fail (StackErr (ErrOther msg)),
     logged s1 (docker_InspectContainer redisContainerName)
       (Some (ErrOther msg))).
Proof.
  intros Hd Hi. unfold startRedis.
  unfold_ops. rewrite Hd. cbv beta iota zeta. rewrite Hi. reflexivity.
Qed.

Lemma startRell_running tag s c s1 ci :
  let name := containerNameForTag tag in
  theDocker s = (Done c, s1) →
  r_err (ask (docker_InspectContainer name) s1) = None →
  find (refers name) (containers (world s1)) = Some ci →
  Running ci = true →
  startRell tag s = (Done tt, logged s1 (docker_InspectContainer name) None).
Proof.
  intros name Hd Hi Hf Hr. unfold startRell. fold name.
  unfold_ops. rewrite Hd. cbv beta iota zeta. rewrite Hi, Hf.
  cbv beta iota zeta. rewrite Hr. reflexivity.
Qed.

(** C7. When the container of a tag (or the redis container) exists but
    is not running, [startRell] (or [startRedis]) removes it first and
    only then creates and starts a new one: every create comes after a
    successful remove, every start after a successful create, a call
    that succeeds is followed by the next, the first call that fails
    ends the function with its error, and on success the container
    found under the name is the new one, running, of the image of the
    tag.  An inspection that fails with anything but not-found ends the
    function with that error, wrapped, after the inspection alone. *)
Theorem stale_container_replaced (tag : string) (s s1 : State)
    (c : DockerClient) :
  theDocker s = (Done c, s1) →
  (∀ ci,
     r_err (ask (docker_InspectContainer (containerNameForTag tag)) s1) = None →
     find (refers (containerNameForTag tag)) (containers (world s1)) = Some ci →
     Running ci = false →
     replaces_stale (startRell tag s) s1 (containerNameForTag tag)
       [ioutil_ReadFile rellEnvFile] (rellImage +:+ ":" +:+ tag)
       {| hc_Binds := []; hc_Links := [redisContainerLink] |})
  ∧ (∀ ci,
     r_err (ask (docker_InspectContainer redisContainerName) s1) = None →
     find (refers redisContainerName) (containers (world s1)) = Some ci →
     Running ci = false →
     replaces_stale (startRedis s) s1 redisContainerName [] redisImage
       {| hc_Binds := [redisDataBind]; hc_Links := [] |})
  ∧ (∀ msg,
     r_err (ask (docker_InspectContainer (containerNameForTag tag)) s1)
     = Some msg →
     startRell tag s
     = (Fail (StackErr (ErrOther msg)),
        logged s1 (docker_InspectContainer (containerNameForTag tag))
          (Some (ErrOther msg))))
  ∧ (∀ msg,
     r_err (ask (docker_InspectContainer redisContainerName) s1) = Some msg →
     startRedis s
     = (Fail (StackErr (ErrOther msg)),
        logged s1 (docker_InspectContainer redisContainerName)
          (Some (ErrOther msg)))).
Proof.
  intros Hd. repeat split; intros.
  - by eapply startRell_stale.
  - by eapply startRedis_stale.
  - by eapply startRell_inspect_error.
  - by eapply startRedis_inspect_error.
Qed.

(** In this sample both containers exist and are stopped, and nothing
    fails: each is removed, created again and started. *)
Lemma stale_container_replaced_witness :
  let s := Sample.state Sample.stopped Sample.calm in
  let s1 := snd (theDocker s) in
  (replaces_stale (startRell "v42" s) s1 (containerNameForTag "v42")
     [ioutil_ReadFile rellEnvFile] (rellImage +:+ ":" +:+ "v42")
     {| hc_Binds := []; hc_Links := [redisContainerLink] |}
   ∧ replaces_stale (startRedis s) s1 redisContainerName [] redisImage
       {| hc_Binds := [redisDataBind]; hc_Links := [] |})
  ∧ fst (startRell "v42" s) = Done tt
  ∧ map ev_call (since s1 (snd (startRell "v42" s)))
    = [docker_InspectContainer "rell-v42";
       docker_RemoveContainer "rell-v42";
       ioutil_ReadFile "/etc/conf.d/rell";
       docker_CreateContainer
         {| cfg_User := "15151"; cfg_Image := "daaku/rell:v42";
            cfg_Env := ["FB_APP_ID=1"; "EMPCHECK=off"] |} "rell-v42";
       docker_StartContainer "id-rell-v42"
         {| hc_Binds := []; hc_Links := ["redis:redis"] |}]
  ∧ fst (startRedis s) = Done tt
  ∧ map ev_call (since s1 (snd (startRedis s)))
    = [docker_InspectContainer "redis";
       docker_RemoveContainer "redis";
       docker_CreateContainer
         {| cfg_User := ""; cfg_Image := "daaku/redis"; cfg_Env := [] |}
         "redis";
       docker_StartContainer "id-redis"
         {| hc_Binds := ["/var/lib/redis:/data"]; hc_Links := [] |}].
Proof.
  intros s s1.
  assert (Hd : theDocker s
               = (Done {| URL := "unix:///var/run/docker.sock" |}, s1))
    by (vm_compute; reflexivity).
  destruct (stale_container_replaced "v42" s _ _ Hd) as (Hrell & Hredis & _).
  split; [split |].
  - apply (Hrell (Sample.rell "v42" "b42" false)); vm_compute; reflexivity.
  - apply (Hredis (set_running false "" Sample.redis)); vm_compute; reflexivity.
  - vm_compute. repeat split; reflexivity.
Defined.

Ltac second_find :=
  first
    [ eexists; split; [eassumption | assumption]
    | rewrite find_map_same by (intros x; destruct (refers _ x); reflexivity);
      first [ rewrite find_app_None by apply find_removed
            | rewrite find_app_None by assumption ];
      cbn [find]; rewrite refers_own_name;
      cbn [fmap option_fmap option_map];
      eexists; split; [reflexivity |];
      rewrite !refers_new_id; reflexivity ].

(** C6. [startRell] is idempotent.  When the first call finds the
    container of the tag running, the inspection is all it does.  After
    any first call that succeeds, a second call (whose inspection the
    daemon answers) inspects and does nothing else: no create, no
    start, no remove.  So both calls together make exactly one create
    and one start when the container was not running before, and none
    when it was. *)
Theorem startRell_idempotent (tag : string) (s s1 s2 : State)
    (c : DockerClient) :
  let name := containerNameForTag tag in
  let inspect := docker_InspectContainer name in
  theDocker s = (Done c, s1) →
  startRell tag s = (Done tt, s2) →
  r_err (ask inspect s2) = None →
  (running_under name s1 = true → s2 = logged s1 inspect None)
  ∧ startRell tag s2 = (Done tt, logged s2 inspect None)
  ∧ let both := since s (snd (startRell tag s2)) in
    let once := if running_under name s1 then 0%nat else 1%nat in
    count_calls is_create both = once
    ∧ count_calls is_start both = once
    ∧ count_calls is_remove (since s2 (snd (startRell tag s2))) = 0%nat.
Proof.
  intros name inspect Hd H1 Hi2.
  assert (Hready : ready c (dep s1)) by (by eapply theDocker_Done).
  unfold startRell, rellEnv in H1. fold name in H1.
  unfold_ops_in H1. rewrite Hd in H1. cbv beta iota zeta in H1.
  repeat step_in H1.
  all: try discriminate H1.
  all: new_is_there.
  all: injection H1 as Hs2; symmetry in Hs2.
  all: assert (Hdep : dep s2 = dep s1)
         by (rewrite Hs2; by autorewrite with world).
  all: assert (Hfind2 : ∃ ci, find (refers name) (containers (world s2)) = Some ci
                               ∧ Running ci = true)
         by (rewrite Hs2; autorewrite with world; second_find).
  all: destruct Hfind2 as (ci2 & Hfind2 & Hrun2).
  all: assert (H2 : startRell tag s2 = (Done tt, logged s2 inspect None))
         by (eapply startRell_running; eauto;
             apply theDocker_ready; by rewrite Hdep).
  all: rewrite H2; cbn [snd].
  all: split; [| split; [reflexivity |]].
  all: unfold running_under; rewrite Hfind; try rewrite Hrun.
  all: try (intros _; exact Hs2).
  all: try discriminate.
  all: cbv zeta.
  all: rewrite (since_app s2 _ [{| ev_call := inspect; ev_err := None;
                                  ev_at := now (world s2) |}])
         by (by autorewrite with world).
  all: destruct (theDocker_trace _ _ _ Hd) as [Ht | Ht].
  all: erewrite (since_app s)
         by (autorewrite with world; rewrite Hs2; autorewrite with world;
             rewrite Ht, <- ?app_assoc; reflexivity).
  all: repeat split; reflexivity.
Qed.

Lemma startRell_idempotent_witness :
  let s := Sample.state Sample.v41_live Sample.calm in
  let s2 := snd (startRell "v42" s) in
  startRell "v42" s2
  = (Done tt, logged s2 (docker_InspectContainer (containerNameForTag "v42")) None)
  ∧ count_calls is_create (since s (snd (startRell "v42" s2))) = 1%nat
  ∧ count_calls is_start (since s (snd (startRell "v42" s2))) = 1%nat.
Proof.
  intros s s2.
  assert (Hd : theDocker s
               = (Done {| URL := "unix:///var/run/docker.sock" |},
                  snd (theDocker s))) by (vm_compute; reflexivity).
  assert (H1 : startRell "v42" s = (Done tt, s2)) by (vm_compute; reflexivity).
  assert (Hi : r_err (ask (docker_InspectContainer (containerNameForTag "v42"))
                        s2) = None) by (vm_compute; reflexivity).
  destruct (startRell_idempotent "v42" s _ s2 _ Hd H1 Hi)
    as (_ & Hsecond & Hcreate & Hstart & _).
  exact (conj Hsecond (conj Hcreate Hstart)).
Defined.


(** ** killExcept *)

Lemma bind_Done {A B} (m : M A) (k : A → M B) s a s' :
  m s = (Done a, s') → bind m k s = k a s'.
Proof. intros H. unfold bind. by rewrite H. Qed.

Lemma bind_assoc {A B C} (m : M A) (f : A → M B) (g : B → M C) s :
  bind (bind m f) g s = bind m (λ x, bind (f x) g) s.
Proof. unfold bind. by destruct (m s) as [[] ?]. Qed.

Lemma stop_seconds : time.Seconds stopTimeout = 30.
Proof. reflexivity. Qed.

Lemma stays_filter ref x (cs : list Container) :
  refers ref x = false → x ∈ cs →
  x ∈ filter (λ y, negb (refers ref y)) cs.
Proof.
  intros Hx Hin. apply list_elem_of_filter. split; [| done]. by rewrite Hx.
Qed.

Lemma stays_map ref (f : Container → Container) x (cs : list Container) :
  refers ref x = false → x ∈ cs →
  x ∈ map (λ y, if refers ref y then f y else y) cs.
Proof.
  intros Hx Hin. apply list_elem_of_In, in_map_iff. exists x.
  rewrite Hx. split; [done | by apply list_elem_of_In].
Qed.

Lemma sweep_one_runs docker c s :
  ∃ r s' evs,
    sweep_one docker c s = (Done r, s')
    ∧ trace (world s') = trace (world s) ++ evs
    ∧ map ev_call evs = sweep_calls c
    ∧ removal_errors evs = match r with Err e => [e] | OK _ => [] end
    ∧ Forall plain (removal_errors evs)
    ∧ dep s' = dep s
    ∧ oracle (world s') = oracle (world s)
    ∧ (∀ x, refers (Id c) x = false →
            x ∈ containers (world s) → x ∈ containers (world s'))
    ∧ (∀ p, p ≠ conf_of c → files (world s') !! p = files (world s) !! p).
Proof.
  remember (sweep_one docker c s) as out eqn:Hout.
  unfold sweep_one in Hout. unfold_ops_in Hout.
  repeat step_in Hout.
  all: subst out.
  all: eexists _, _, _; split; [reflexivity |].
  all: autorewrite with world; rewrite <- ?app_assoc; cbn [app].
  all: split; [reflexivity |]; split; [reflexivity |].
  all: split; [reflexivity |].
  all: split;
    [ cbn; repeat first [apply Forall_nil_2 | apply Forall_cons_2];
      unfold plain; eauto |].
  all: split; [reflexivity |]; split; [reflexivity |].
  all: split;
    [ intros x Hx Hin; auto using stays_filter, stays_map
    | intros p Hp; rewrite ?lookup_delete_ne by congruence; reflexivity ].
Qed.

Lemma bind_three {A B C D} (a : M A) (b : M B) (c : M C) (k : C → M D) s :
  bind (bind a (λ _, bind b (λ _, c))) k s
  = bind a (λ _, bind b (λ _, bind c k)) s.
Proof.
  unfold bind. destruct (a s) as [[] s1]; try done.
  by destruct (b s1) as [[] s2].
Qed.

Lemma Dump_dumped v s : spew.Dump v s = (Done tt, dumped v s).
Proof. reflexivity. Qed.
Lemma trace_dumped v s : trace (world (dumped v s)) = trace (world s).
Proof. reflexivity. Qed.
Lemma containers_dumped v s :
  containers (world (dumped v s)) = containers (world s).
Proof. reflexivity. Qed.
Lemma files_dumped v s : files (world (dumped v s)) = files (world s).
Proof. reflexivity. Qed.
Lemma oracle_dumped v s : oracle (world (dumped v s)) = oracle (world s).
Proof. reflexivity. Qed.
Lemma dep_dumped v s : dep (dumped v s) = dep s.
Proof. reflexivity. Qed.
Lemma now_dumped v s : now (world (dumped v s)) = now (world s).
Proof. reflexivity. Qed.

#[global] Hint Rewrite trace_dumped containers_dumped files_dumped
  oracle_dumped dep_dumped now_dumped : world.
Arguments dumped : simpl never.

(** The loop, one container at a time. *)
Lemma killExcept_loop_cons docker tag c rest errs s :
  killExcept_loop docker tag (c :: rest) errs s
  = if release c then
      match tagFromNames (Names c) with
      | None => (Panic, s)
      | Some cTag =>
          let s1 := dumped (DumpString cTag) (dumped (DumpNames (Names c)) s) in
          if String.eqb cTag tag then killExcept_loop docker tag rest errs s1
          else
            bind (sweep_one docker c)
              (λ r, killExcept_loop docker tag rest
                      (match r with Err err => errs ++ [err] | OK _ => errs end))
              s1
      end
    else killExcept_loop docker tag rest errs s.
Proof.
  cbn [killExcept_loop]. fold (release c).
  destruct (release c); [| reflexivity]. cbn [negb].
  unfold sweep_one, conf_of, tag_of.
  destruct (tagFromNames (Names c)) as [cTag|]; [| reflexivity].
  cbn [default orPanic]. rewrite bind_three.
  unfold bind at 1, ret. unfold bind at 1. rewrite Dump_dumped.
  unfold bind at 1. rewrite Dump_dumped. rewrite stop_seconds.
  by destruct (String.eqb cTag tag).
Qed.

Lemma removal_errors_app a b :
  removal_errors (a ++ b) = removal_errors a ++ removal_errors b.
Proof. apply omap_app. Qed.

(** When no tag derivation panics the loop visits every container, makes
    the three calls on each retired one and collects the errors of the
    removals. *)
Lemma killExcept_loop_runs docker tag cs :
  Forall names_ok cs → ∀ errs s,
  ∃ evs s',
    killExcept_loop docker tag cs errs s
    = (Done (errs ++ removal_errors evs), s')
    ∧ trace (world s') = trace (world s) ++ evs
    ∧ map ev_call evs = flat_map sweep_calls (List.filter (swept tag) cs)
    ∧ Forall plain (removal_errors evs)
    ∧ dep s' = dep s.
Proof.
  induction 1 as [|c rest Hc _ IH]; intros errs s.
  - exists [], s. cbn. rewrite !app_nil_r. repeat split. constructor.
  - rewrite killExcept_loop_cons. cbn [List.filter].
    unfold swept at 1, tag_of. destruct (release c) eqn:Hrel; cbn [andb].
    + destruct (Hc Hrel) as [cTag Htag]. rewrite Htag.
      cbn [default from_option id]. cbv zeta. destruct (String.eqb cTag tag); cbn [negb].
      * destruct (IH errs (dumped (DumpString cTag)
                             (dumped (DumpNames (Names c)) s)))
          as (evs & s' & Hrun & Htr & Hcalls & Hplain & Hdep).
        exists evs, s'. autorewrite with world in Htr, Hdep.
        done.
      * destruct (sweep_one_runs docker c
                    (dumped (DumpString cTag) (dumped (DumpNames (Names c)) s)))
          as (r & s3 & evs1 & Hrun1 & Htr1 & Hcalls1 & Herrs1 & Hplain1
              & Hdep1 & _).
        rewrite (bind_Done _ _ _ _ _ Hrun1).
        destruct (IH (match r with Err err => errs ++ [err] | OK _ => errs end)
                    s3)
          as (evs & s' & Hrun & Htr & Hcalls & Hplain & Hdep).
        exists (evs1 ++ evs), s'. autorewrite with world in Htr1, Hdep1.
        rewrite removal_errors_app, map_app, Hcalls1, Hcalls, Htr, Htr1, Hrun.
        rewrite Herrs1, <- !app_assoc, Hdep, Hdep1.
        repeat split.
        -- destruct r; [done |]. by rewrite <- app_assoc.
        -- apply Forall_app. split; [by rewrite <- Herrs1 | done].
    + apply IH.
Qed.


Lemma wrapped_plain e : plain e → stackerr.wrapped e = StackErr e.
Proof. by intros [-> | [msg ->]]. Qed.

Lemma plain_not_multi e errs : plain e → e ≠ multiError errs.
Proof. by intros [-> | [msg ->]]. Qed.

(** [killExcept] up to the loop, once the client is there and the
    listing succeeds. *)
Lemma killExcept_listed tag s s1 c :
  theDocker s = (Done c, s1) →
  r_err (ask (docker_ListContainers true) s1) = None →
  killExcept tag s
  = bind (killExcept_loop c tag (containers (world s1)) [])
      (λ errs, match errs with
               | [] => ret tt
               | [e] => fail (stackerr.wrapped e)
               | _ => fail (stackerr.wrapped (multiError errs))
               end)
      (logged s1 (docker_ListContainers true) None).
Proof.
  intros Hd Hl. unfold killExcept. unfold bind at 1. rewrite Hd.
  unfold bind at 1, orWrap, dockerclient.ListContainers, bind at 1.
  rewrite Hl. reflexivity.
Qed.

(** [killExcept] as a whole, when no tag derivation panics. *)
Lemma killExcept_swept tag s s1 c :
  theDocker s = (Done c, s1) →
  r_err (ask (docker_ListContainers true) s1) = None →
  Forall names_ok (containers (world s1)) →
  ∃ evs,
    trace (world (snd (killExcept tag s)))
    = trace (world s1)
      ++ {| ev_call := docker_ListContainers true; ev_err := None;
            ev_at := now (world s1) |} :: evs
    ∧ map ev_call evs
      = flat_map sweep_calls (List.filter (swept tag) (containers (world s1)))
    ∧ Forall plain (removal_errors evs)
    ∧ fst (killExcept tag s)
      = match removal_errors evs with
        | [] => Done tt
        | [e] => Fail (stackerr.wrapped e)
        | errs => Fail (stackerr.wrapped (multiError errs))
        end.
Proof.
  intros Hd Hl Hok. rewrite (killExcept_listed _ _ _ _ Hd Hl).
  destruct (killExcept_loop_runs c tag _ Hok []
              (logged s1 (docker_ListContainers true) None))
    as (evs & s' & Hrun & Htr & Hcalls & Hplain & _).
  exists evs. rewrite (bind_Done _ _ _ _ _ Hrun).
  autorewrite with world in Htr. rewrite <- app_assoc in Htr.
  cbn [app] in *.
  by destruct (removal_errors evs) as [|e1 [|e2 errs]].
Qed.

(** C3. With the client at hand and the listing successful, and every
    release container's tag derivable, [killExcept tag] makes the three
    calls (delete the config file, stop, remove) on every release
    container whose tag is not [tag], in order, whatever any of them
    returns.  With K the number of removals that failed: it succeeds
    exactly when K = 0, returns the one removal error (wrapped) exactly
    when K = 1 and the [multiError] of all K removal errors (wrapped)
    exactly when K > 1; errors of stops and of file deletions play no
    part. *)
Theorem killExcept_aggregates (tag : string) (s s1 : State) (c : DockerClient) :
  theDocker s = (Done c, s1) →
  r_err (ask (docker_ListContainers true) s1) = None →
  Forall names_ok (containers (world s1)) →
  sweeps_and_aggregates tag (killExcept tag s) s1.
Proof.
  intros Hd Hl Hok. unfold sweeps_and_aggregates.
  destruct (killExcept_swept tag s s1 c Hd Hl Hok)
    as (evs & Htr & Hcalls & Hplain & Hres).
  exists evs. cbv zeta. rewrite Hres.
  split; [exact Htr |]. split; [exact Hcalls |].
  destruct (removal_errors evs) as [|e1 [|e2 errs]] eqn:Herrs; cbn [length].
  - repeat split; try done; try lia. by intros (e & [=] & _).
  - apply Forall_cons in Hplain as [Hp _]. rewrite (wrapped_plain _ Hp).
    repeat split; try done; try lia.
    + by exists e1.
    + intros [=]. exfalso. by eapply plain_not_multi.
  - repeat split; try done; try lia. by intros (e & [=] & _).
Qed.

Lemma killExcept_aggregates_witness :
  let s := Sample.state Sample.crowded (Sample.refusing (Sample.sticky "a40")) in
  sweeps_and_aggregates "v42" (killExcept "v42" s) (snd (theDocker s)).
Proof.
  intros s.
  apply (killExcept_aggregates "v42" s (snd (theDocker s))
           {| URL := "unix:///var/run/docker.sock" |} eq_refl eq_refl).
  repeat constructor; intros _; by eexists.
Defined.

(** In that sample the removal of one of three retired containers is
    refused: all nine calls are made and the one error comes back. *)
Example killExcept_one_refusal :
  let s := Sample.state Sample.crowded (Sample.refusing (Sample.sticky "a40")) in
  fst (killExcept "v42" s) = Fail (StackErr (ErrOther "refused"))
  ∧ map ev_call (since (snd (theDocker s)) (snd (killExcept "v42" s)))
    = docker_ListContainers true
      :: flat_map sweep_calls
           [Sample.rell "v39" "a39" false; Sample.rell "v40" "a40" true;
            Sample.rell "v41" "a41" true].
Proof. vm_compute. split; reflexivity. Qed.


(** ** tagFromNames *)

Lemma HasPrefix_slice p r :
  GoString.HasPrefix r p = true →
  is_Some (GoString.slice_from (String.length p) r).
Proof.
  unfold GoString.HasPrefix. revert r.
  induction p as [|a p IH]; intros r; [by eexists |].
  destruct r as [|b r]; cbn [String.prefix String.length GoString.slice_from];
    [done |].
  destruct (ascii_dec a b); [apply IH | done].
Qed.

Lemma prefix_slice r :
  GoString.HasPrefix r rellContainerNamePrefix = true →
  is_Some (GoString.slice_from (String.length rellContainerNamePrefix) r).
Proof. apply HasPrefix_slice. Qed.

Lemma tagFromNames_cons name rest :
  tagFromNames (name :: rest)
  = match name with
    | EmptyString => None
    | String _ r =>
        if carries name
        then GoString.slice_from (String.length rellContainerNamePrefix) r
        else tagFromNames rest
    end.
Proof. by destruct name. Qed.

(** The derivation panics exactly when the scan reaches an empty name. *)
Lemma tagFromNames_None names :
  tagFromNames names = None
  ↔ ∃ before after,
      names = before ++ "" :: after ∧ Forall passed_over before.
Proof.
  induction names as [|name rest IH].
  - split; [done |]. intros (before & after & H & _). by destruct before.
  - rewrite tagFromNames_cons. destruct name as [|ch r].
    + split; [| done]. intros _. by exists [], rest.
    + destruct (carries (String ch r)) eqn:Hc.
      * split.
        -- intros Hn. destruct (prefix_slice r Hc) as [t Ht]. congruence.
        -- intros (before & after & H & Hq).
           destruct before as [|b before]; [done |].
           injection H as <- _. apply Forall_cons in Hq as [[_ Hq] _].
           congruence.
      * rewrite IH. split.
        -- intros (before & after & -> & Hq).
           exists (String ch r :: before), after. split; [done |].
           by constructor.
        -- intros (before & after & H & Hq).
           destruct before as [|b before]; [done |].
           injection H as <- ->. apply Forall_cons in Hq as [_ Hq].
           by exists before, after.
Qed.

Lemma tagFromNames_empty_tag names :
  Forall passed_over names → tagFromNames names = Some "".
Proof.
  induction 1 as [|name rest [Hne Hc] _ IH]; [done |].
  rewrite tagFromNames_cons. destruct name; [done |]. by rewrite Hc.
Qed.

(** The loop panics at the first release container whose tag cannot be
    derived. *)
Lemma killExcept_loop_panics docker tag before x after :
  Forall names_ok before → release x = true →
  tagFromNames (Names x) = None →
  ∀ errs s, fst (killExcept_loop docker tag (before ++ x :: after) errs s) = Panic.
Proof.
  intros Hok Hrel Hnone. induction Hok as [|c rest Hc _ IH]; intros errs s.
  - cbn [app]. rewrite killExcept_loop_cons, Hrel, Hnone. reflexivity.
  - cbn [app]. rewrite killExcept_loop_cons.
    destruct (release c) eqn:Hrc; [| apply IH].
    destruct (Hc Hrc) as [cTag ->]. cbv zeta.
    destruct (String.eqb cTag tag); [apply IH |].
    destruct (sweep_one_runs docker c
                (dumped (DumpString cTag) (dumped (DumpNames (Names c)) s)))
      as (r & s3 & evs1 & Hrun1 & _).
    rewrite (bind_Done _ _ _ _ _ Hrun1). apply IH.
Qed.

Lemma conf_of_empty_tag :
  containerNginxConfPath (containerNameForTag "") = "/etc/nginx/server/rell-.conf".
Proof. reflexivity. Qed.

Lemma filter_swept_app tag (l1 l2 : list Container) :
  List.filter (swept tag) (l1 ++ l2)
  = List.filter (swept tag) l1 ++ List.filter (swept tag) l2.
Proof. apply List.filter_app. Qed.

(** C10, as stated, fails: a name list can hold an empty name and the
    derivation be defined all the same, because the scan stops at the
    first name that carries the prefix; [killExcept] then does not
    panic. *)
Lemma empty_name_after_match_no_panic :
  "" ∈ Names Sample.trailing
  ∧ tagFromNames (Names Sample.trailing) = Some "v42"
  ∧ fst (killExcept "v41" (Sample.state [Sample.trailing] Sample.calm))
    = Done tt.
Proof.
  split; [| split; vm_compute; reflexivity].
  apply list_elem_of_In. cbn. auto.
Qed.

(** C10, amended.  For a release container [x] that [killExcept] reaches
    (client at hand, listing successful, no panic before it):
    deriving its tag panics exactly when the scan of its names meets
    an empty name before any name carrying the prefix, and then
    [killExcept] panics instead of returning an error; when every name
    is non-empty and none carries the prefix the derived tag is empty,
    and for a non-empty current tag [killExcept] calls for the
    deletion of [rell-.conf] in the config directory, then for stopping
    and for removing [x]. *)
Theorem derived_tag_contract (tag : string) (s s1 : State) (c : DockerClient)
    (x : Container) (before after : list Container) :
  theDocker s = (Done c, s1) →
  r_err (ask (docker_ListContainers true) s1) = None →
  containers (world s1) = before ++ x :: after →
  Forall names_ok before →
  release x = true →
  (tagFromNames (Names x) = None
   ↔ ∃ b a, Names x = b ++ "" :: a ∧ Forall passed_over b)
  ∧ (tagFromNames (Names x) = None → fst (killExcept tag s) = Panic)
  ∧ (Forall passed_over (Names x) →
     tagFromNames (Names x) = Some ""
     ∧ (tag ≠ "" → Forall names_ok after →
        ∃ pre post,
          map ev_call (since s1 (snd (killExcept tag s)))
          = pre ++ [os_Remove "/etc/nginx/server/rell-.conf";
                    docker_StopContainer (Id x) 30;
                    docker_RemoveContainer (Id x)] ++ post)).
Proof.
  intros Hd Hl Hcs Hbefore Hrel.
  split; [apply tagFromNames_None |]. split.
  - intros Hnone. rewrite (killExcept_listed _ _ _ _ Hd Hl), Hcs.
    unfold bind.
    pose proof (killExcept_loop_panics c tag before x after Hbefore Hrel Hnone
                  [] (logged s1 (docker_ListContainers true) None)) as Hp.
    destruct (killExcept_loop _ _ _ _ _) as [r s']. cbn in Hp. by subst r.
  - intros Hq. pose proof (tagFromNames_empty_tag _ Hq) as Htag.
    split; [exact Htag |]. intros Hne Hafter.
    assert (Hok : Forall names_ok (containers (world s1))).
    { rewrite Hcs. apply Forall_app. split; [done |].
      constructor; [| done]. intros _. by rewrite Htag. }
    destruct (killExcept_swept tag s s1 c Hd Hl Hok)
      as (evs & Htr & Hcalls & _).
    rewrite (since_app _ _ _ Htr). cbn [map ev_call]. rewrite Hcalls, Hcs.
    rewrite filter_swept_app. cbn [List.filter].
    assert (Hsw : swept tag x = true).
    { unfold swept, tag_of. rewrite Hrel, Htag.
      destruct tag; [done | reflexivity]. }
    rewrite Hsw, flat_map_app. cbn [flat_map].
    assert (Hconf : conf_of x = "/etc/nginx/server/rell-.conf")
      by (unfold conf_of, tag_of; by rewrite Htag).
    unfold sweep_calls at 2. rewrite Hconf.
    by exists (docker_ListContainers true
               :: flat_map sweep_calls (List.filter (swept tag) before)),
              (flat_map sweep_calls (List.filter (swept tag) after)).
Qed.

Lemma derived_tag_contract_witness :
  let s := Sample.state [Sample.redis; Sample.unnamed; Sample.trailing]
             Sample.calm in
  tagFromNames (Names Sample.unnamed) = Some ""
  ∧ ∃ pre post,
      map ev_call (since (snd (theDocker s)) (snd (killExcept "v42" s)))
      = pre ++ [os_Remove "/etc/nginx/server/rell-.conf";
                docker_StopContainer "c0de" 30;
                docker_RemoveContainer "c0de"] ++ post.
Proof.
  intros s.
  assert (Hd : theDocker s
               = (Done {| URL := "unix:///var/run/docker.sock" |},
                  snd (theDocker s))) by (vm_compute; reflexivity).
  destruct (derived_tag_contract "v42" s _ _ Sample.unnamed
              [Sample.redis] [Sample.trailing] Hd)
    as (_ & _ & Hquiet); try (vm_compute; reflexivity).
  - repeat constructor. intros [=].
  - destruct Hquiet as [Htag Hcalls].
    + repeat constructor; try discriminate.
    + split; [exact Htag |]. apply Hcalls; [discriminate |].
      repeat constructor. intros _. by eexists.
Defined.


(** ** Paths of the config files *)

Lemma Split1_nonempty sep s : GoString.Split1 sep s ≠ [].
Proof.
  destruct s as [|c r]; cbn; [done |].
  destruct (Ascii.eqb c sep); [done |]. by destruct (GoString.Split1 sep r).
Qed.

Lemma Split1_app sep p n :
  GoString.Split1 sep (p +:+ String sep n)
  = GoString.Split1 sep p ++ GoString.Split1 sep n.
Proof.
  induction p as [|c p IH].
  - change ("" +:+ String sep n) with (String sep n).
    cbn [GoString.Split1 app]. by rewrite Ascii.eqb_refl.
  - change (String c p +:+ String sep n) with (String c (p +:+ String sep n)).
    cbn [GoString.Split1]. rewrite IH.
    destruct (Ascii.eqb c sep); [done |].
    pose proof (Split1_nonempty sep p).
    by destruct (GoString.Split1 sep p).
Qed.

Lemma Split1_no_slash n :
  GoString.no_slashb n = true → GoString.Split1 "/" n = [n].
Proof.
  induction n as [|c n IH]; [done |].
  cbn [GoString.no_slashb GoString.Split1].
  intros [Hc Hn]%andb_prop. apply negb_true_iff in Hc. rewrite Hc.
  by rewrite (IH Hn).
Qed.

Lemma no_slashb_app a b :
  GoString.no_slashb (a +:+ b) = GoString.no_slashb a && GoString.no_slashb b.
Proof.
  induction a as [|c a IH]; [done |].
  change (String c a +:+ b) with (String c (a +:+ b)).
  cbn [GoString.no_slashb]. by rewrite IH, andb_assoc.
Qed.

(** With a tag free of slashes [filepath.Join] has nothing to clean. *)
Lemma conf_path tag :
  GoString.no_slashb tag = true →
  containerNginxConfPath (containerNameForTag tag)
  = "/etc/nginx/server/rell-" +:+ tag +:+ ".conf".
Proof.
  intros Htag.
  assert (Hn : GoString.no_slashb ("rell-" +:+ tag +:+ ".conf") = true)
    by (by rewrite !no_slashb_app, Htag).
  unfold containerNginxConfPath, containerNameForTag, rellContainerNamePrefix,
    nginxConfDir.
  change (("rell-" +:+ tag) +:+ ".conf") with ("rell-" +:+ tag +:+ ".conf").
  set (m := tag +:+ ".conf") in *.
  change ("rell-" +:+ m)
    with (String "r" (String "e" (String "l" (String "l" (String "-" m))))) in *.
  set (n := String "r" _) in *.
  change (filepath.Join "/etc/nginx/server" n)
    with ("/" +:+ GoString.Join
            (rev (fold_left (filepath.clean_elem true)
                    (GoString.Split1 "/" ("/etc/nginx/server" +:+ String "/" n))
                    [])) "/").
  rewrite Split1_app, (Split1_no_slash n Hn).
  reflexivity.
Qed.

Lemma length_append a b :
  String.length (a +:+ b) = (String.length a + String.length b)%nat.
Proof.
  induction a as [|c a IH]; [done |].
  change (String c a +:+ b) with (String c (a +:+ b)). cbn. by rewrite IH.
Qed.

Lemma append_cancel_r a b s : a +:+ s = b +:+ s → a = b.
Proof.
  revert b. induction a as [|c a IH]; intros [|d b] H.
  - done.
  - apply (f_equal String.length) in H. rewrite !length_append in H.
    cbn [String.length] in H. lia.
  - apply (f_equal String.length) in H. rewrite !length_append in H.
    cbn [String.length] in H. lia.
  - change (String c (a +:+ s) = String d (b +:+ s)) in H.
    injection H as -> H. by rewrite (IH _ H).
Qed.

(** Different tags have different config files. *)
Lemma conf_path_inj a b :
  GoString.no_slashb a = true → GoString.no_slashb b = true →
  containerNginxConfPath (containerNameForTag a)
  = containerNginxConfPath (containerNameForTag b) →
  a = b.
Proof.
  intros Ha Hb. rewrite (conf_path a Ha), (conf_path b Hb). intros H.
  apply String.app_inj in H. by apply append_cancel_r in H.
Qed.

(** White space is trimmed rune by rune: a no-break space, an em space
    and a next-line character go with the ASCII white space, while a
    continuation byte without its leading byte stays. *)
Example TrimSpace_wide :
  GoString.TrimSpace
    (GoString.bytes [194; 160; 65; 32; 66; 226; 128; 131; 194; 133; 10]%nat)
  = "A B".
Proof. reflexivity. Qed.

Example TrimSpace_stray_byte :
  GoString.TrimSpace (GoString.bytes [160; 65; 194]%nat)
  = GoString.bytes [160; 65; 194]%nat.
Proof. reflexivity. Qed.


(** ** What the sweep spares *)

Lemma theDocker_frame s :
  let s1 := snd (theDocker s) in
  containers (world s1) = containers (world s)
  ∧ files (world s1) = files (world s)
  ∧ ∃ evs, trace (world s1) = trace (world s) ++ evs
           ∧ Forall (λ e, is_new_client (ev_call e) = true) evs.
Proof.
  unfold theDocker, docker, bind, ret, fail, panic,
    dockerclient.NewDockerClient, refused.
  destruct (clientOnce (dep s)) eqn:Hon.
  - destruct (client (dep s)), (clientErr (dep s)); cbn;
      (split; [done |]; split; [done |]; exists []; by rewrite app_nil_r).
  - destruct (r_err _); cbn;
      (split; [done |]; split; [done |]; eexists; split; [done |];
       by repeat constructor).
Qed.

Lemma NoDup_map_inj {A B} (f : A → B) l a b :
  NoDup (map f l) → a ∈ l → b ∈ l → f a = f b → a = b.
Proof.
  induction l as [|x l IH]; cbn; intros Hnd Ha Hb Hab.
  - by apply elem_of_nil in Ha.
  - apply NoDup_cons in Hnd as [Hx Hnd].
    apply elem_of_cons in Ha as [-> | Ha], Hb as [-> | Hb]; auto.
    + exfalso. apply Hx. rewrite Hab. apply list_elem_of_In, in_map.
      by apply list_elem_of_In.
    + exfalso. apply Hx. rewrite <- Hab. apply list_elem_of_In, in_map.
      by apply list_elem_of_In.
Qed.

Lemma existsb_eqb_false n (names : list string) :
  n ∉ names → existsb (String.eqb n) names = false.
Proof.
  induction names as [|m names IH]; [done |]. intros Hn. cbn.
  apply not_elem_of_cons in Hn as [Hm Hn]. rewrite (IH Hn).
  destruct (String.eqb_spec n m); [done | done].
Qed.

(** Every turn of the loop on a container that is apart from [x0] and
    from the file [p0] leaves both alone, and so does the loop, also
    when it panics on the way. *)
Lemma killExcept_loop_spares docker tag x0 p0 cs :
  Forall (λ c, swept tag c = true →
               refers (Id c) x0 = false ∧ conf_of c ≠ p0 ∧ Id c ≠ Id x0) cs →
  ∀ errs s, x0 ∈ containers (world s) →
  let s' := snd (killExcept_loop docker tag cs errs s) in
  x0 ∈ containers (world s')
  ∧ files (world s') !! p0 = files (world s) !! p0
  ∧ ∃ evs, trace (world s') = trace (world s) ++ evs
           ∧ Forall (λ c, aims_at p0 (Id x0) c = false) (map ev_call evs).
Proof.
  induction 1 as [|c rest Hc _ IH]; intros errs s Hin.
  - cbn. repeat split; [done |]. exists []. by rewrite app_nil_r.
  - rewrite killExcept_loop_cons.
    destruct (release c) eqn:Hrel; [| by apply IH].
    destruct (tagFromNames (Names c)) as [cTag|] eqn:Htag.
    2:{ cbn. repeat split; [done |]. exists []. by rewrite app_nil_r. }
    cbv zeta. destruct (String.eqb cTag tag) eqn:Heq.
    + pose proof (IH errs (dumped (DumpString cTag)
                             (dumped (DumpNames (Names c)) s))) as IH'.
      autorewrite with world in IH'. by apply IH'.
    + destruct Hc as (Hx & Hp & Hid).
      { unfold swept, tag_of. rewrite Hrel, Htag. cbn [default from_option id].
        by rewrite Heq. }
      destruct (sweep_one_runs docker c
                  (dumped (DumpString cTag) (dumped (DumpNames (Names c)) s)))
        as (r & s3 & evs1 & Hrun1 & Htr1 & Hcalls1 & _ & _ & _ & _
            & Hkeep & Hfiles).
      rewrite (bind_Done _ _ _ _ _ Hrun1).
      autorewrite with world in Htr1, Hkeep, Hfiles.
      destruct (IH (match r with Err err => errs ++ [err] | OK _ => errs end)
                  s3 (Hkeep _ Hx Hin))
        as (Hin' & Hf' & evs & Htr & Hev).
      split; [exact Hin' |]. split; [by rewrite Hf', Hfiles |].
      exists (evs1 ++ evs). rewrite Htr, Htr1, <- app_assoc. split; [done |].
      rewrite map_app, Hcalls1. apply Forall_app. split; [| done].
      unfold sweep_calls. repeat constructor; cbn [aims_at].
      * by apply String.eqb_neq.
      * by apply String.eqb_neq.
      * by apply String.eqb_neq.
Qed.

(** Every call of the loop is one of the three made for a retired
    container: the turn of a container that carries [tag] makes none. *)
Lemma killExcept_loop_calls docker tag cs :
  ∀ errs s,
  ∃ evs,
    trace (world (snd (killExcept_loop docker tag cs errs s)))
    = trace (world s) ++ evs
    ∧ Forall (λ call, ∃ c, c ∈ cs ∧ swept tag c = true ∧ call ∈ sweep_calls c)
        (map ev_call evs).
Proof.
  induction cs as [|c rest IH]; intros errs s.
  - exists []. by rewrite app_nil_r.
  - assert (Hweak : ∀ evs,
      Forall (λ call, ∃ c', c' ∈ rest ∧ swept tag c' = true
                            ∧ call ∈ sweep_calls c') (map ev_call evs) →
      Forall (λ call, ∃ c', c' ∈ c :: rest ∧ swept tag c' = true
                            ∧ call ∈ sweep_calls c') (map ev_call evs)).
    { intros evs Hall. eapply Forall_impl; [exact Hall |].
      intros call (c' & Hin & Hsw & Hcall).
      exists c'. split; [by apply elem_of_cons; right | done]. }
    rewrite killExcept_loop_cons.
    destruct (release c) eqn:Hrel.
    2:{ destruct (IH errs s) as (evs & Htr & Hev). exists evs. auto. }
    destruct (tagFromNames (Names c)) as [cTag|] eqn:Htag.
    2:{ exists []. by rewrite app_nil_r. }
    cbv zeta. destruct (String.eqb cTag tag) eqn:Heq.
    + destruct (IH errs (dumped (DumpString cTag)
                           (dumped (DumpNames (Names c)) s)))
        as (evs & Htr & Hev).
      autorewrite with world in Htr. exists evs. auto.
    + destruct (sweep_one_runs docker c
                  (dumped (DumpString cTag) (dumped (DumpNames (Names c)) s)))
        as (r & s3 & evs1 & Hrun1 & Htr1 & Hcalls1 & _).
      rewrite (bind_Done _ _ _ _ _ Hrun1).
      autorewrite with world in Htr1.
      destruct (IH (match r with Err err => errs ++ [err] | OK _ => errs end) s3)
        as (evs & Htr & Hev).
      exists (evs1 ++ evs). rewrite Htr, Htr1, <- app_assoc. split; [done |].
      rewrite map_app, Hcalls1. apply Forall_app. split; [| auto].
      apply Forall_forall. intros call Hcall. exists c.
      split; [by apply elem_of_cons; left |]. split; [| done].
      unfold swept, tag_of. rewrite Hrel, Htag. cbn [default from_option id].
      by rewrite Heq.
Qed.

(** Containers with identifiers that are unique and are not names, and
    with derived tags that hold no slash, are apart from one another. *)
Lemma apart_when_distinct (tag : string) (cs : list Container) (x : Container) :
  x ∈ cs → current tag x = true →
  distinct_ids cs →
  Forall (λ c, release c = true → GoString.no_slashb (tag_of c) = true) cs →
  Forall (λ c, swept tag c = true → apart x c) cs.
Proof.
  intros Hin Hcur [Hnd Hnames] Htags.
  apply andb_prop in Hcur as [Hrel Hx]. apply String.eqb_eq in Hx.
  apply Forall_forall. intros c Hc Hsw.
  apply andb_prop in Hsw as [Hrc Hsw]. apply negb_true_iff in Hsw.
  apply String.eqb_neq in Hsw.
  assert (Hid : Id c ≠ Id x).
  { intros Heq. apply Hsw. rewrite <- Hx. f_equal.
    by eapply (NoDup_map_inj Id). }
  split.
  - unfold refers. apply orb_false_intro.
    + apply String.eqb_neq. congruence.
    + apply existsb_eqb_false.
      rewrite Forall_forall in Hnames. specialize (Hnames c Hc).
      rewrite Forall_forall in Hnames. by apply Hnames.
  - unfold conf_of. intros Heq. apply Hsw. rewrite <- Hx.
    rewrite Forall_forall in Htags.
    apply conf_path_inj; [by apply Htags | by apply Htags | done].
Qed.

(** C1, as stated, fails: the config file derived for a retired
    container can be the one of the container that carries the tag, and
    then the sweep deletes it. *)
Lemma colliding_config_is_deleted :
  let x := Sample.rell "v41" "a41" true in
  let s := Sample.state [x; Sample.detour] Sample.calm in
  let s' := snd (killExcept "v41" s) in
  x ∈ containers (world s)
  ∧ current "v41" x = true
  ∧ fst (killExcept "v41" s) = Done tt
  ∧ files (world s) !! conf_of x = Some "upstream v41"
  ∧ files (world s') !! conf_of x = None
  ∧ os_Remove (conf_of x) ∈ map ev_call (since s s').
Proof.
  cbv zeta. split; [by apply elem_of_cons; left |].
  split; [vm_compute; reflexivity |].
  split; [vm_compute; reflexivity |].
  split; [vm_compute; reflexivity |].
  split; [vm_compute; reflexivity |].
  apply list_elem_of_In. vm_compute. auto.
Qed.

(** C1, amended.  [killExcept tag] makes no call for a listed release
    container [x] whose derived tag is [tag]: each of its calls is the
    construction of the client, the listing, or one of the three calls
    made for a release container with another derived tag.  When every
    such retired container is apart from [x], [x] is still there
    afterwards, unchanged, its config file is as it was, and no call of
    the sweep deletes that file or stops or removes that container. *)
Theorem killExcept_spares_current (tag : string) (s : State) (x : Container) :
  x ∈ containers (world s) →
  current tag x = true →
  Forall (λ c, swept tag c = true → apart x c) (containers (world s)) →
  let s' := snd (killExcept tag s) in
  x ∈ containers (world s')
  ∧ files (world s') !! conf_of x = files (world s) !! conf_of x
  ∧ Forall (λ c, aims_at (conf_of x) (Id x) c = false)
      (map ev_call (since s s'))
  ∧ Forall (λ call,
              is_new_client call = true
              ∨ call = docker_ListContainers true
              ∨ ∃ c, c ∈ containers (world s) ∧ swept tag c = true
                     ∧ call ∈ sweep_calls c)
      (map ev_call (since s s')).
Proof.
  intros Hin Hcur Hapart0.
  assert (Hapart : Forall (λ c, swept tag c = true →
             refers (Id c) x = false ∧ conf_of c ≠ conf_of x ∧ Id c ≠ Id x)
           (containers (world s))).
  { eapply Forall_impl; [exact Hapart0 |]. intros c Hc Hsw.
    destruct (Hc Hsw) as [Hre Hconf]. split; [done |]. split; [done |].
    intros Heq. unfold refers in Hre. rewrite Heq, String.eqb_refl in Hre.
    discriminate Hre. }
  clear Hapart0.
  destruct (theDocker_frame s) as (Hcs & Hfs & pre & Hpre & Hnew).
  assert (Hquiet : Forall (λ c, aims_at (conf_of x) (Id x) c = false)
                     (map ev_call pre)).
  { apply Forall_fmap. eapply Forall_impl; [exact Hnew |].
    intros e' He'. cbn beta in He'. cbn [compose].
    destruct (ev_call e') eqn:Hcall; try discriminate He'; reflexivity. }
  assert (Hclient : Forall (λ call,
              is_new_client call = true
              ∨ call = docker_ListContainers true
              ∨ ∃ c, c ∈ containers (world s) ∧ swept tag c = true
                     ∧ call ∈ sweep_calls c) (map ev_call pre)).
  { apply Forall_fmap. eapply Forall_impl; [exact Hnew |].
    intros e' He'. by left. }
  cbv zeta. remember (killExcept tag s) as out eqn:Hout.
  unfold killExcept in Hout. unfold bind at 1 in Hout.
  destruct (theDocker s) as [[c| e | | ] s1]; cbn [snd] in *.
  2-4: subst out; cbn [snd]; rewrite Hcs, Hfs; split; [done |];
       split; [done |]; by rewrite (since_app _ _ _ Hpre).
  unfold bind at 1, orWrap, dockerclient.ListContainers, bind at 1, refused
    in Hout.
  destruct (r_err (ask (docker_ListContainers true) s1)) eqn:Hl;
    cbv beta iota zeta in Hout.
  - subst out. cbn [fail snd]. autorewrite with world. rewrite Hcs, Hfs.
    split; [done |]. split; [done |].
    erewrite since_app
      by (autorewrite with world; rewrite Hpre, <- app_assoc; reflexivity).
    rewrite map_app. split; apply Forall_app; (split; [done |]).
    + by repeat constructor.
    + apply Forall_cons_2; [| apply Forall_nil_2]. right. by left.
  - cbn [ret] in Hout. rewrite Hcs in *.
    pose proof (killExcept_loop_spares c tag x (conf_of x) _ Hapart []
                  (logged s1 (docker_ListContainers true) None)) as Hloop.
    autorewrite with world in Hloop. rewrite Hcs in Hloop.
    destruct (Hloop Hin) as (Hin' & Hf' & evs & Htr & Hev). clear Hloop.
    destruct (killExcept_loop_calls c tag (containers (world s)) []
                (logged s1 (docker_ListContainers true) None))
      as (evs' & Htr' & Hev').
    rewrite Htr in Htr'. apply app_inv_head in Htr'. subst evs'.
    assert (Hretired : Forall (λ call,
              is_new_client call = true
              ∨ call = docker_ListContainers true
              ∨ ∃ c, c ∈ containers (world s) ∧ swept tag c = true
                     ∧ call ∈ sweep_calls c) (map ev_call evs)).
    { eapply Forall_impl; [exact Hev' |]. intros call Hcall. right. by right. }
    unfold bind in Hout.
    destruct (killExcept_loop c tag (containers (world s)) []
                (logged s1 (docker_ListContainers true) None))
      as [[errs| e | | ] s'] eqn:Hrun; cbn [snd] in *.
    1: destruct errs as [|e1 [|e2 errs]].
    all: unfold ret, fail in Hout; subst out; cbn [snd].
    all: rewrite Hfs in Hf'.
    all: split; [done |]; split; [done |].
    all: erewrite since_app
           by (rewrite Htr, Hpre, <- !app_assoc; reflexivity).
    all: rewrite !map_app.
    all: split; repeat (apply Forall_app; split); try done.
    all: apply Forall_cons_2; [| apply Forall_nil_2]; first [done | right; by left].
Qed.

Lemma killExcept_spares_current_witness :
  let s := Sample.state Sample.crowded Sample.calm in
  let x := Sample.rell "v42" "a42" true in
  let s' := snd (killExcept "v42" s) in
  x ∈ containers (world s')
  ∧ files (world s') !! conf_of x = files (world s) !! conf_of x
  ∧ Forall (λ c, aims_at (conf_of x) (Id x) c = false)
      (map ev_call (since s s'))
  ∧ Forall (λ call,
              is_new_client call = true
              ∨ call = docker_ListContainers true
              ∨ ∃ c, c ∈ containers (world s) ∧ swept "v42" c = true
                     ∧ call ∈ sweep_calls c)
      (map ev_call (since s s')).
Proof.
  intros s x.
  apply (killExcept_spares_current "v42" s x).
  - apply list_elem_of_In. cbn. auto 10.
  - vm_compute. reflexivity.
  - change (containers (world s)) with Sample.crowded.
    unfold Sample.crowded.
    repeat (apply Forall_cons_2;
            [intros Hsw; first [discriminate Hsw
                               | split; [vm_compute; reflexivity
                                        | vm_compute; discriminate]] |]).
    apply Forall_nil_2.
Defined.


(** ** The client is constructed once *)

Lemma constructions_after s c e cs fs t :
  constructions (after s c e cs fs t)
  = (constructions s + if is_new_client c then 1 else 0)%nat.
Proof.
  unfold constructions, count_calls. rewrite trace_after, List.filter_app.
  rewrite length_app. cbn. by destruct (is_new_client c).
Qed.

Lemma constructions_logged s c e :
  constructions (logged s c e)
  = (constructions s + if is_new_client c then 1 else 0)%nat.
Proof. apply constructions_after. Qed.

Lemma constructions_dumped v s : constructions (dumped v s) = constructions s.
Proof. reflexivity. Qed.

Lemma pending_after s c e cs fs t : pending (after s c e cs fs t) = pending s.
Proof. reflexivity. Qed.
Lemma pending_logged s c e : pending (logged s c e) = pending s.
Proof. reflexivity. Qed.
Lemma pending_dumped v s : pending (dumped v s) = pending s.
Proof. reflexivity. Qed.

Lemma keeps_ret {A} (a : A) : keeps_client (ret a).
Proof. by intros s. Qed.
Lemma keeps_fail {A} e : keeps_client (@fail A e).
Proof. by intros s. Qed.
Lemma keeps_panic {A} : keeps_client (@panic A).
Proof. by intros s. Qed.
Lemma keeps_spin {A} : keeps_client (@spin A).
Proof. by intros s. Qed.

Lemma keeps_bind {A B} (m : M A) (k : A → M B) :
  keeps_client m → (∀ a, keeps_client (k a)) → keeps_client (bind m k).
Proof.
  intros Hm Hk s. unfold bind. specialize (Hm s).
  destruct (m s) as [[a| e | | ] s1]; cbn [snd] in *; try done.
  destruct (Hk a s1) as [H1 H2]. destruct Hm as [H3 H4].
  split; [lia |]. intros Hon. rewrite <- (H4 Hon). apply H2.
  by rewrite (H4 Hon).
Qed.

Lemma keeps_orWrap {A} (m : M (result A)) :
  keeps_client m → keeps_client (orWrap m).
Proof.
  intros Hm. apply keeps_bind; [done |]. intros [a | e].
  - apply keeps_ret.
  - apply keeps_fail.
Qed.

Lemma keeps_orPanic {A} (o : option A) : keeps_client (orPanic o).
Proof. destruct o; [apply keeps_ret | apply keeps_panic]. Qed.

(** An operation of the world other than the construction. *)
Ltac keeps_op :=
  intros s; unfold_ops;
  repeat match goal with
         | |- context [match ?x with _ => _ end] => destruct x
         end;
  cbn [snd];
  rewrite ?constructions_after, ?constructions_logged, ?pending_after,
    ?pending_logged, ?dep_after, ?dep_logged;
  cbn; (split; [lia | done]).

Lemma keeps_Inspect c n : keeps_client (dockerclient.InspectContainer c n).
Proof. keeps_op. Qed.
Lemma keeps_Create c cfg n : keeps_client (dockerclient.CreateContainer c cfg n).
Proof. keeps_op. Qed.
Lemma keeps_Start c i hc : keeps_client (dockerclient.StartContainer c i hc).
Proof. keeps_op. Qed.
Lemma keeps_Stop c i t : keeps_client (dockerclient.StopContainer c i t).
Proof. keeps_op. Qed.
Lemma keeps_Remove c i : keeps_client (dockerclient.RemoveContainer c i).
Proof. keeps_op. Qed.
Lemma keeps_List c a : keeps_client (dockerclient.ListContainers c a).
Proof. keeps_op. Qed.
Lemma keeps_os_Create n : keeps_client (os.Create n).
Proof. keeps_op. Qed.
Lemma keeps_Execute t f text :
  keeps_client (os.write (Template_Execute t f text) f text).
Proof. keeps_op. Qed.
Lemma keeps_Fprint f text : keeps_client (fmt.Fprint f text).
Proof. keeps_op. Qed.
Lemma keeps_Close f : keeps_client (os.Close f).
Proof. keeps_op. Qed.
Lemma keeps_os_Remove n : keeps_client (os.Remove n).
Proof. keeps_op. Qed.
Lemma keeps_MkdirAll p m : keeps_client (os.MkdirAll p m).
Proof. keeps_op. Qed.
Lemma keeps_FindProcess p : keeps_client (os.FindProcess p).
Proof. keeps_op. Qed.
Lemma keeps_Signal p sig : keeps_client (os.Signal p sig).
Proof. keeps_op. Qed.
Lemma keeps_ReadFile n : keeps_client (ioutil.ReadFile n).
Proof. keeps_op. Qed.
Lemma keeps_Head u : keeps_client (http.Head u).
Proof. keeps_op. Qed.
Lemma keeps_BodyClose u : keeps_client (http.BodyClose u).
Proof. keeps_op. Qed.
Lemma keeps_Now : keeps_client time.Now.
Proof. keeps_op. Qed.
Lemma keeps_Sleep d : keeps_client (time.Sleep d).
Proof. keeps_op. Qed.
Lemma keeps_Dump v : keeps_client (spew.Dump v).
Proof. by intros s. Qed.
Lemma keeps_read_dep : keeps_client (λ s : State, (Done (dep s), s)).
Proof. by intros s. Qed.

Lemma constructions_set_client s c e :
  constructions (set_client s c e) = constructions s.
Proof. reflexivity. Qed.

Lemma keeps_docker : keeps_client docker.
Proof.
  intros s. unfold docker, pending.
  destruct (clientOnce (dep s)) eqn:Hon; cbn [snd]; [by rewrite Hon |].
  unfold dockerclient.NewDockerClient, refused.
  destruct (r_err (ask _ s)) as [msg |];
    cbn [snd fst]; rewrite constructions_set_client, constructions_logged;
    cbn; (split; [lia | done]).
Qed.

Ltac keeps :=
  repeat first
    [ apply keeps_ret | apply keeps_fail | apply keeps_panic | apply keeps_spin
    | apply keeps_orPanic | apply keeps_docker
    | apply keeps_Inspect | apply keeps_Create | apply keeps_Start
    | apply keeps_Stop | apply keeps_Remove | apply keeps_List
    | apply keeps_os_Create | apply keeps_Execute | apply keeps_Fprint
    | apply keeps_Close | apply keeps_os_Remove | apply keeps_MkdirAll
    | apply keeps_FindProcess | apply keeps_Signal | apply keeps_ReadFile
    | apply keeps_Head | apply keeps_BodyClose | apply keeps_Now
    | apply keeps_Sleep | apply keeps_Dump | apply keeps_read_dep
    | apply keeps_orWrap | apply keeps_bind
    | match goal with
      | |- ∀ _, _ => intro
      | |- keeps_client (match ?x with _ => _ end) => destruct x
      end ].

Lemma keeps_theDocker : keeps_client theDocker.
Proof. unfold theDocker. keeps. Qed.

Lemma keeps_rellEnv : keeps_client rellEnv.
Proof. unfold rellEnv. keeps. Qed.

Lemma keeps_startRedis : keeps_client startRedis.
Proof. unfold startRedis. apply keeps_bind; [apply keeps_theDocker |]. keeps. Qed.

Lemma keeps_startRell tag : keeps_client (startRell tag).
Proof.
  unfold startRell. apply keeps_bind; [apply keeps_theDocker |].
  intros c. apply keeps_bind; [keeps |].
  intros r.
  assert (∀ d cn, keeps_client
    (env <- rellEnv ;;
     id <- orWrap (dockerclient.CreateContainer d
             {| cfg_User := rellUser; cfg_Image := rellImage +:+ ":" +:+ tag;
                cfg_Env := env |} cn) ;;
     orWrap (dockerclient.StartContainer d id
               {| hc_Binds := []; hc_Links := [redisContainerLink] |}))).
  { intros d cn. apply keeps_bind; [apply keeps_rellEnv |]. keeps. }
  destruct r as [ci | err].
  - destruct (Running ci); [keeps |]. apply keeps_bind; [keeps |]. auto.
  - destruct (negb (is_ErrNotFound err)); [keeps | auto].
Qed.

Lemma keeps_genTagNginxConf tag : keeps_client (genTagNginxConf tag).
Proof.
  unfold genTagNginxConf. apply keeps_bind; [apply keeps_theDocker |].
  intros c. apply keeps_bind; [keeps |].
  intros ci. apply keeps_bind; [keeps |].
  intros f. apply keeps_bind; [keeps |].
  intros d. cbv zeta. generalize (tagNginxConf
    {| tag_BackendName := containerNameForTag tag;
       tag_ServerName := tag +:+ "." +:+ ServerSuffix d;
       tag_IpAddress := IpAddress ci; tag_Port := rellPort;
       tag_CertFile := CertFile d; tag_KeyFile := KeyFile d |}).
  intros text. keeps.
Qed.

Lemma keeps_switchProd tag : keeps_client (switchProd tag).
Proof.
  unfold switchProd. cbv zeta. apply keeps_bind; [keeps |].
  intros f. apply keeps_bind; [keeps |].
  intros d. generalize (prodNginxConf
    {| prod_ServerSuffix := ServerSuffix d;
       prod_BackendName := containerNameForTag tag;
       prod_CertFile := CertFile d; prod_KeyFile := KeyFile d |}).
  intros text. keeps.
Qed.

Lemma keeps_hupNginx : keeps_client hupNginx.
Proof. unfold hupNginx. keeps. Qed.

Lemma keeps_infoCheck_loop budget u until :
  keeps_client (infoCheck_loop budget u until).
Proof.
  induction budget as [| budget IH]; cbn [infoCheck_loop]; [apply keeps_spin |].
  apply keeps_bind; [keeps |]. intros [res | err]; [keeps |].
  apply keeps_bind; [keeps |]. intros t.
  destruct (time.After t until); [keeps |].
  apply keeps_bind; [keeps | auto].
Qed.

Lemma keeps_infoCheck budget tag : keeps_client (infoCheck budget tag).
Proof.
  unfold infoCheck. apply keeps_bind; [apply keeps_theDocker |].
  intros c. apply keeps_bind; [keeps |].
  intros ci. apply keeps_bind; [keeps |].
  intros t. apply keeps_infoCheck_loop.
Qed.

Lemma keeps_killExcept_loop c tag cs errs :
  keeps_client (killExcept_loop c tag cs errs).
Proof.
  revert errs. induction cs as [| x cs IH]; intros errs;
    cbn [killExcept_loop]; [apply keeps_ret |].
  destruct (negb _); [apply IH |].
  apply keeps_bind; [keeps |]. intros cTag.
  apply keeps_bind; [keeps |]. intros _.
  apply keeps_bind; [keeps |]. intros _.
  destruct (String.eqb cTag tag); [apply IH |].
  apply keeps_bind; [keeps |]. intros _.
  apply keeps_bind; [keeps |]. intros _.
  apply keeps_bind; [keeps |]. intros r. apply IH.
Qed.

Lemma keeps_killExcept tag : keeps_client (killExcept tag).
Proof.
  unfold killExcept. apply keeps_bind; [apply keeps_theDocker |].
  intros c. apply keeps_bind; [keeps |].
  intros cs. apply keeps_bind; [apply keeps_killExcept_loop |].
  intros [| e [| e' errs]]; keeps.
Qed.

Lemma keeps_DeployTag budget tag prod : keeps_client (DeployTag budget tag prod).
Proof.
  unfold DeployTag.
  apply keeps_bind; [apply keeps_startRedis |]. intros _.
  apply keeps_bind; [apply keeps_startRell |]. intros _.
  apply keeps_bind; [apply keeps_genTagNginxConf |]. intros _.
  apply keeps_bind; [apply keeps_infoCheck |]. intros _.
  apply keeps_bind;
    [destruct prod; [apply keeps_switchProd | apply keeps_ret] |]. intros _.
  apply keeps_bind; [apply keeps_hupNginx |]. intros _.
  destruct prod; [apply keeps_killExcept | apply keeps_ret].
Qed.

Lemma keeps_invoke budget m : keeps_client (invoke budget m).
Proof.
  destruct m; cbn [invoke];
    auto using keeps_startRedis, keeps_startRell, keeps_genTagNginxConf,
      keeps_switchProd, keeps_hupNginx, keeps_infoCheck, keeps_killExcept,
      keeps_DeployTag.
  - apply keeps_bind; [apply keeps_docker | intros; apply keeps_ret].
  - apply keeps_bind; [apply keeps_rellEnv | intros; apply keeps_ret].
Qed.

Lemma invoke_all_cons budget m ms s :
  invoke_all budget (m :: ms) s = invoke_all budget ms (snd (invoke budget m s)).
Proof. reflexivity. Qed.

Lemma invoke_all_keeps budget ms s :
  (constructions (invoke_all budget ms s) + pending (invoke_all budget ms s)
   = constructions s + pending s)%nat
  ∧ (clientOnce (dep s) = true → dep (invoke_all budget ms s) = dep s).
Proof.
  revert s. induction ms as [| m ms IH]; intros s; [done |].
  rewrite invoke_all_cons.
  destruct (IH (snd (invoke budget m s))) as [H1 H2].
  destruct (keeps_invoke budget m s) as [H3 H4].
  split; [lia |]. intros Hon. rewrite H2; [by apply H4 |].
  by rewrite H4.
Qed.

Lemma docker_memoised s :
  clientOnce (dep s) = true →
  docker s = (Done (client (dep s), stackerr.Wrap (clientErr (dep s))), s).
Proof. intros Hon. unfold docker. by rewrite Hon. Qed.

Lemma docker_sets_once s : clientOnce (dep (snd (docker s))) = true.
Proof.
  unfold docker. destruct (clientOnce (dep s)) eqn:Hon; cbn [snd]; [done |].
  unfold dockerclient.NewDockerClient, refused.
  by destruct (r_err (ask _ s)).
Qed.

Lemma docker_result s :
  fst (docker s)
  = Done (client (dep (snd (docker s))),
          stackerr.Wrap (clientErr (dep (snd (docker s))))).
Proof. reflexivity. Qed.

(** C9: a [Deploy] constructs its client at most once.  Whatever methods
    are invoked, in whatever order and with whatever outcome, the number
    of constructions made plus the one the [sync.Once] still allows does
    not change; and once [docker()] has been called, no later method
    constructs again and every later [docker()] returns what the first
    call returned, client and wrapped error alike, without touching the
    state. *)
Theorem docker_constructed_once (budget : nat) (ms : list Method) (s : State) :
  let s1 := snd (docker s) in
  let s2 := invoke_all budget ms s1 in
  (constructions (invoke_all budget ms s) + pending (invoke_all budget ms s)
   = constructions s + pending s)%nat
  ∧ pending s1 = 0%nat
  ∧ constructions s2 = constructions s1
  ∧ docker s2 = (fst (docker s), s2).
Proof.
  intros s1 s2. split; [apply invoke_all_keeps |].
  pose proof (docker_sets_once s) as Hon. fold s1 in Hon.
  destruct (invoke_all_keeps budget ms s1) as [Hsum Hdep].
  fold s2 in Hsum, Hdep. specialize (Hdep Hon).
  assert (pending s2 = pending s1) as Hp by (unfold pending; by rewrite Hdep).
  split; [unfold pending; by rewrite Hon |].
  split; [lia |].
  rewrite docker_memoised by (by rewrite Hdep).
  rewrite docker_result. fold s1. by rewrite Hdep.
Qed.

(** A refused connection is replayed: the first [docker()] of a [Deploy]
    whose connection setup fails returns the wrapped failure, and so does
    every later call, without a second attempt. *)
Lemma docker_failure_replayed (budget : nat) (ms : list Method) (s : State)
    (msg : string) :
  clientOnce (dep s) = false →
  r_err (ask (docker_NewDockerClient (DockerURL (dep s))) s) = Some msg →
  let s2 := invoke_all budget ms (snd (docker s)) in
  fst (docker s) = Done (None, Some (StackErr (ErrOther msg)))
  ∧ docker s2 = (Done (None, Some (StackErr (ErrOther msg))), s2)
  ∧ constructions s2 = S (constructions s).
Proof.
  intros Hoff Hask s2.
  assert (fst (docker s) = Done (None, Some (StackErr (ErrOther msg)))) as H1.
  { unfold docker, dockerclient.NewDockerClient, refused.
    by rewrite Hoff, Hask. }
  split; [done |].
  destruct (invoke_all_keeps budget ms (snd (docker s))) as [Hsum Hdep].
  pose proof (docker_sets_once s) as Hon. specialize (Hdep Hon).
  fold s2 in Hsum, Hdep.
  split.
  - rewrite docker_memoised by (by rewrite Hdep).
    rewrite docker_result in H1. by rewrite Hdep, H1.
  - assert (pending s2 = pending (snd (docker s))) as Hp
      by (unfold pending; by rewrite Hdep).
    destruct (keeps_docker s) as [Hd _].
    unfold pending in Hd at 1 2. rewrite Hon, Hoff in Hd. lia.
Qed.


(** ** The readiness poll *)

Lemma infoCheckSleep_pos : 0 < infoCheckSleep.
Proof. reflexivity. Qed.

Lemma rounds_left (d before : Z) :
  0 < d → 0 ≤ before → (before - d) / d + 1 = before / d.
Proof.
  intros Hd Hb. replace before with ((before - d) + 1 * d) at 2 by lia.
  rewrite Z.div_add by lia. lia.
Qed.

Lemma infoCheck_loop_polled (budget : nat) (u : string) (until : Z) (s : State) :
  (∀ tr, 0 ≤ r_took (oracle (world s) tr (http_Head u))) →
  now (world s) ≤ until + infoCheckSleep →
  (until + infoCheckSleep - now (world s)) / infoCheckSleep + 1
    ≤ Z.of_nat budget →
  polled u until s (infoCheck_loop budget u until s).
Proof.
  pose proof infoCheckSleep_pos as Hpos.
  revert s. induction budget as [| budget IH]; intros s Htook Hnow Hbudget.
  { assert (0 ≤ (until + infoCheckSleep - now (world s)) / infoCheckSleep)
      by (apply Z.div_pos; lia). lia. }
  cbn [infoCheck_loop]. unfold bind at 1. unfold http.Head.
  pose proof (Htook (trace (world s))) as Hfirst. fold (ask (http_Head u) s) in Hfirst.
  destruct (r_err (ask (http_Head u) s)) as [msg |] eqn:Hask.
  - (* the request failed *)
    unfold bind at 1, time.Now. cbn [fst snd]. autorewrite with world.
    set (t := now (world s) + r_took (ask (http_Head u) s)).
    set (s1 := after s (http_Head u) (Some (ErrOther msg)) _ _ t).
    unfold time.After. destruct (until <? t) eqn:Hlate.
    + apply Z.ltb_lt in Hlate.
      exists [], {| ev_call := http_Head u; ev_err := Some (ErrOther msg);
                    ev_at := t |}.
      unfold fail. cbn [snd fst ev_call ev_err ev_at rounds app]. subst s1.
      rewrite now_after, trace_after, ?app_nil_r.
      repeat split; try done. subst t. unfold ask. lia.
    + apply Z.ltb_ge in Hlate.
      unfold bind at 1, time.Sleep. cbn [fst snd].
      set (s2 := after s1 (time_Sleep infoCheckSleep) None _ _ _).
      assert (now (world s2) = t + infoCheckSleep) as Hnow2
        by (subst s2 s1; by rewrite !now_after).
      assert (oracle (world s2) = oracle (world s)) as Horacle
        by (subst s2 s1; by rewrite !oracle_after).
      assert (trace (world s2)
              = trace (world s)
                ++ [ {| ev_call := http_Head u; ev_err := Some (ErrOther msg);
                        ev_at := t |};
                     {| ev_call := time_Sleep infoCheckSleep; ev_err := None;
                        ev_at := t + infoCheckSleep |} ]) as Htrace.
      { subst s2 s1. rewrite !trace_after, !now_after, <- app_assoc. done. }
      destruct (IH s2) as (retries & last & Hrounds & Hcall & Hend & Hbound & Hout).
      { intros tr. rewrite Horacle. apply Htook. }
      { lia. }
      { rewrite Hnow2.
        replace (until + infoCheckSleep - (t + infoCheckSleep))
          with (until + infoCheckSleep - t - infoCheckSleep) by lia.
        assert ((until + infoCheckSleep - t) / infoCheckSleep
                ≤ (until + infoCheckSleep - now (world s)) / infoCheckSleep)
          by (apply Z.div_le_mono; lia).
        rewrite rounds_left by lia. lia. }
      rewrite Horacle, Htrace, <- app_assoc in Hbound.
      set (out := infoCheck_loop budget u until s2) in *.
      exists ({| ev_call := http_Head u; ev_err := Some (ErrOther msg);
                 ev_at := t |}
              :: {| ev_call := time_Sleep infoCheckSleep; ev_err := None;
                    ev_at := t + infoCheckSleep |} :: retries), last.
      split.
      { cbn [rounds]. rewrite Hrounds. unfold failed_by, nap_from.
        cbn [ev_call ev_err ev_at]. rewrite String.eqb_refl, !Z.eqb_refl.
        by apply Z.leb_le in Hlate as ->. }
      split; [done |]. split; [done |]. split; [exact Hbound |].
      destruct (ev_err last) as [err |].
      * destruct Hout as (Hres & Hpast & ->). rewrite Htrace, <- app_assoc.
        done.
      * destruct Hout as (Hres & closed & Hclosed & ->).
        split; [done |]. exists closed. rewrite Htrace, <- app_assoc. done.
  - (* the request succeeded *)
    unfold http.BodyClose.
    set (t := now (world s) + r_took (ask (http_Head u) s)).
    eexists [], {| ev_call := http_Head u; ev_err := None; ev_at := t |}.
    cbn [snd fst ev_call ev_err ev_at rounds app].
    rewrite now_logged, now_after, trace_logged, trace_after, app_nil_r,
      <- app_assoc.
    repeat split; try done.
    + subst t. unfold ask. lia.
    + eexists. split; [| reflexivity]. reflexivity.
Qed.

(** C8, as stated, fails: a request that is answered only after the
    window has passed still ends the poll with success, so a poll in
    whose window no request succeeded need not fail. *)
Lemma late_answer_is_success :
  let u := "http://172.17.0.9:43600/info/" in
  let s := Sample.state [] (Sample.sluggish (infoCheckMaxWait + time.Second)) in
  let until := now (world s) + infoCheckMaxWait in
  let out := infoCheck_loop 1 u until s in
  fst out = Done tt
  ∧ existsb (succeeded_by u until) (since s (snd out)) = false
  ∧ until + infoCheckSleep < now (world (snd out)).
Proof. vm_compute. repeat split; reflexivity. Qed.

(** C8, amended.  With requests that take no negative time, a deadline
    not yet passed and iterations enough for the window, the poll loop
    ends, and what it did is [polled]: each request that failed by the
    deadline was followed by one sleep of the poll interval and another
    request; the first request to succeed, however late, is followed by
    closing its body and success; the first request to fail after the
    deadline makes the loop fail with that request's error; and the loop
    ends no later than the deadline plus one poll interval plus the time
    its last request took. *)
Theorem infoCheck_loop_polls (budget : nat) (u : string) (until : Z)
    (s : State) :
  (∀ tr, 0 ≤ r_took (oracle (world s) tr (http_Head u))) →
  now (world s) ≤ until →
  (until - now (world s)) / infoCheckSleep + 2 ≤ Z.of_nat budget →
  polled u until s (infoCheck_loop budget u until s).
Proof.
  intros Htook Hnow Hbudget. pose proof infoCheckSleep_pos as Hpos.
  apply infoCheck_loop_polled; [done | lia |].
  pose proof (rounds_left infoCheckSleep
                (until + infoCheckSleep - now (world s)) Hpos) as Hleft.
  replace (until + infoCheckSleep - now (world s) - infoCheckSleep)
    with (until - now (world s)) in Hleft by lia.
  lia.
Qed.

Lemma infoCheck_loop_polls_witness :
  let u := "http://172.17.0.9:43600/info/" in
  let s := Sample.state [] (Sample.warming 3 (20 * time.Second)) in
  polled u infoCheckMaxWait s (infoCheck_loop 2402 u infoCheckMaxWait s).
Proof.
  intros u s.
  apply (infoCheck_loop_polls 2402 u infoCheckMaxWait s).
  - intros tr. vm_compute. discriminate.
  - vm_compute. discriminate.
  - vm_compute. discriminate.
Defined.

(** In that sample three requests are refused, each after twenty
    seconds; the third is over after the deadline and ends the poll with
    its error. *)
Example infoCheck_loop_warming :
  let u := "http://172.17.0.9:43600/info/" in
  let s := Sample.state [] (Sample.warming 3 (20 * time.Second)) in
  let out := infoCheck_loop 2402 u infoCheckMaxWait s in
  fst out = Fail (StackErr (ErrOther "connection refused"))
  ∧ count_calls Sample.is_head (trace (world (snd out))) = 3%nat
  ∧ now (world (snd out)) = 60 * time.Second + 2 * infoCheckSleep.
Proof. vm_compute. repeat split; reflexivity. Qed.


(** ** DeployTag *)

Lemma DeployTag_steps (budget : nat) (tag : string) (prod : bool) (s : State) :
  DeployTag budget tag prod s = run_steps (deploy_steps budget tag prod) s.
Proof.
  unfold DeployTag, deploy_steps. cbn [app run_steps]. unfold bind.
  destruct (startRedis s) as [[[] | | |] s1]; try reflexivity.
  destruct (startRell tag s1) as [[[] | | |] s2]; try reflexivity.
  destruct (genTagNginxConf tag s2) as [[[] | | |] s3]; try reflexivity.
  destruct (infoCheck budget tag s3) as [[[] | | |] s4]; try reflexivity.
  destruct prod; cbn [app run_steps]; unfold ret.
  - destruct (switchProd tag s4) as [[[] | | |] s5]; try reflexivity.
    destruct (hupNginx s5) as [[[] | | |] s6]; try reflexivity.
    by destruct (killExcept tag s6) as [[[] | | |] s7].
  - by destruct (hupNginx s4) as [[[] | | |] s5].
Qed.

Lemma run_steps_app (before after : list (M unit)) (s s1 : State) :
  passed before s = Some s1 →
  run_steps (before ++ after) s = run_steps after s1.
Proof.
  revert s. induction before as [| step before IH]; intros s; cbn.
  - by intros [= ->].
  - destruct (step s) as [[] s']; try done. apply IH.
Qed.

Lemma run_steps_aborts (before after : list (M unit)) (step : M unit)
    (s s1 : State) :
  passed before s = Some s1 →
  (∀ x, fst (step s1) ≠ Done x) →
  run_steps (before ++ step :: after) s = step s1.
Proof.
  intros Hpassed Hstep. rewrite (run_steps_app _ _ _ _ Hpassed).
  cbn [run_steps]. destruct (step s1) as [[x | e | |] s2]; try done.
  by destruct (Hstep x).
Qed.

(** The handle of a created file is its name. *)
Lemma os_Create_returns (name f : string) (s s' : State) :
  orWrap (os.Create name) s = (Done f, s') → f = name.
Proof.
  unfold_ops. destruct (r_err (ask _ s)); [done |]. by intros [= <- _].
Qed.

(** *** What a computation is confined to *)

Section Confined.
Context (allowed : Call → bool).

Lemma confined_ret {A} (a : A) : confined allowed (ret a).
Proof. intros s. exists []. by rewrite app_nil_r. Qed.
Lemma confined_fail {A} e : confined allowed (@fail A e).
Proof. intros s. exists []. by rewrite app_nil_r. Qed.
Lemma confined_panic {A} : confined allowed (@panic A).
Proof. intros s. exists []. by rewrite app_nil_r. Qed.
Lemma confined_spin {A} : confined allowed (@spin A).
Proof. intros s. exists []. by rewrite app_nil_r. Qed.

Lemma confined_bind {A B} (m : M A) (k : A → M B) :
  confined allowed m → (∀ a, confined allowed (k a)) →
  confined allowed (bind m k).
Proof.
  intros Hm Hk s. unfold bind. specialize (Hm s).
  destruct (m s) as [[a | e | |] s1]; cbn [snd] in *; try done.
  destruct Hm as (evs1 & Ht1 & Ha1 & Hf1 & Hc1).
  destruct (Hk a s1) as (evs2 & Ht2 & Ha2 & Hf2 & Hc2).
  exists (evs1 ++ evs2). rewrite Ht2, Ht1, <- app_assoc.
  split; [done |]. split; [by apply Forall_app |].
  split.
  - intros p [H1 H2]%Forall_app. by rewrite Hf2, Hf1.
  - intros x [H1 H2]%Forall_app Hx. auto.
Qed.

Lemma confined_bind_with {A B} (Q : A → Prop) (m : M A) (k : A → M B) :
  confined allowed m → (∀ s a s', m s = (Done a, s') → Q a) →
  (∀ a, Q a → confined allowed (k a)) →
  confined allowed (bind m k).
Proof.
  intros Hm HQ Hk s. unfold bind. specialize (Hm s). specialize (HQ s).
  destruct (m s) as [[a | e | |] s1]; cbn [snd] in *; try done.
  destruct Hm as (evs1 & Ht1 & Ha1 & Hf1 & Hc1).
  destruct (Hk a (HQ a s1 eq_refl) s1) as (evs2 & Ht2 & Ha2 & Hf2 & Hc2).
  exists (evs1 ++ evs2). rewrite Ht2, Ht1, <- app_assoc.
  split; [done |]. split; [by apply Forall_app |].
  split.
  - intros p [H1 H2]%Forall_app. by rewrite Hf2, Hf1.
  - intros x [H1 H2]%Forall_app Hx. auto.
Qed.

Lemma confined_orWrap {A} (m : M (result A)) :
  confined allowed m → confined allowed (orWrap m).
Proof.
  intros Hm. apply confined_bind; [done |]. intros [a | e].
  - apply confined_ret.
  - apply confined_fail.
Qed.

Lemma confined_orPanic {A} (o : option A) : confined allowed (orPanic o).
Proof. destruct o; [apply confined_ret | apply confined_panic]. Qed.

(** One call that is allowed. *)
Lemma confined_call {A} (m : M A) (c : Call) :
  allowed c = true →
  (∀ s, ∃ e cs fs t,
      snd (m s) = after s c e cs fs t
      ∧ (∀ p, writes p c = false → fs !! p = files (world s) !! p)
      ∧ (∀ x, acts_on x c = false → x ∈ containers (world s) → x ∈ cs)) →
  confined allowed m.
Proof.
  intros Hc Hm s. destruct (Hm s) as (e & cs & fs & t & -> & Hf & Hx).
  exists [{| ev_call := c; ev_err := e; ev_at := t |}].
  rewrite trace_after, files_after, containers_after.
  split; [done |]. split; [by repeat constructor |].
  split.
  - intros p [Hp _]%Forall_cons. by apply Hf.
  - intros x [Hp _]%Forall_cons. by apply Hx.
Qed.
End Confined.

(** The state one call leaves. *)
Ltac one_call :=
  let Hc := fresh "Hc" in
  intros Hc; eapply confined_call; [exact Hc |]; clear Hc; intros st;
  unfold_ops;
  repeat match goal with
         | |- context [match ?x with _ => _ end] => destruct x eqn:?
         end;
  cbn [snd]; unfold logged; do 4 eexists; (split; [reflexivity |]);
  (split; [intros path Hpath | intros ctr Hctr Hin]);
  cbn [writes acts_on] in *;
  rewrite ?lookup_insert_ne, ?lookup_delete_ne
    by (by apply String.eqb_neq);
  auto using stays_filter, stays_map.

Section Calls.
Context (allowed : Call → bool).

Lemma confined_Inspect c n :
  allowed (docker_InspectContainer n) = true →
  confined allowed (dockerclient.InspectContainer c n).
Proof. one_call. Qed.
Lemma confined_Create c cfg n :
  allowed (docker_CreateContainer cfg n) = true →
  confined allowed (dockerclient.CreateContainer c cfg n).
Proof. one_call. apply elem_of_app. by left. Qed.
Lemma confined_Start c i hc :
  allowed (docker_StartContainer i hc) = true →
  confined allowed (dockerclient.StartContainer c i hc).
Proof. one_call. Qed.
Lemma confined_Stop c i t :
  allowed (docker_StopContainer i t) = true →
  confined allowed (dockerclient.StopContainer c i t).
Proof. one_call. Qed.
Lemma confined_Remove c i :
  allowed (docker_RemoveContainer i) = true →
  confined allowed (dockerclient.RemoveContainer c i).
Proof. one_call. Qed.
Lemma confined_List c a :
  allowed (docker_ListContainers a) = true →
  confined allowed (dockerclient.ListContainers c a).
Proof. one_call. Qed.
Lemma confined_os_Create n :
  allowed (os_Create n) = true → confined allowed (os.Create n).
Proof. one_call. Qed.
Lemma confined_Execute t f text :
  allowed (Template_Execute t f text) = true →
  confined allowed (os.write (Template_Execute t f text) f text).
Proof. one_call. Qed.
Lemma confined_Fprint f text :
  allowed (fmt_Fprint f text) = true → confined allowed (fmt.Fprint f text).
Proof. one_call. Qed.
Lemma confined_Close f :
  allowed (File_Close f) = true → confined allowed (os.Close f).
Proof. one_call. Qed.
Lemma confined_os_Remove n :
  allowed (os_Remove n) = true → confined allowed (os.Remove n).
Proof. one_call. Qed.
Lemma confined_MkdirAll p m :
  allowed (os_MkdirAll p m) = true → confined allowed (os.MkdirAll p m).
Proof. one_call. Qed.
Lemma confined_FindProcess p :
  allowed (os_FindProcess p) = true → confined allowed (os.FindProcess p).
Proof. one_call. Qed.
Lemma confined_Signal p sig :
  allowed (Process_Signal p sig) = true → confined allowed (os.Signal p sig).
Proof. one_call. Qed.
Lemma confined_ReadFile n :
  allowed (ioutil_ReadFile n) = true → confined allowed (ioutil.ReadFile n).
Proof. one_call. Qed.
Lemma confined_Head u :
  allowed (http_Head u) = true → confined allowed (http.Head u).
Proof. one_call. Qed.
Lemma confined_BodyClose u :
  allowed (Body_Close u) = true → confined allowed (http.BodyClose u).
Proof. one_call. Qed.
Lemma confined_Sleep d :
  allowed (time_Sleep d) = true → confined allowed (time.Sleep d).
Proof. one_call. Qed.

Lemma confined_Now : confined allowed time.Now.
Proof. intros s. exists []. by rewrite app_nil_r. Qed.
Lemma confined_Dump v : confined allowed (spew.Dump v).
Proof. intros s. exists []. by rewrite app_nil_r. Qed.
Lemma confined_read_dep : confined allowed (λ s : State, (Done (dep s), s)).
Proof. intros s. exists []. by rewrite app_nil_r. Qed.
End Calls.

Lemma confined_docker (allowed : Call → bool) :
  (∀ url, allowed (docker_NewDockerClient url) = true) →
  confined allowed docker.
Proof.
  intros Hc s. unfold docker.
  destruct (clientOnce (dep s)); cbn [snd];
    [exists []; by rewrite app_nil_r |].
  unfold dockerclient.NewDockerClient, refused.
  exists [{| ev_call := docker_NewDockerClient (DockerURL (dep s));
             ev_err := ErrOther <$> r_err (ask (docker_NewDockerClient
                                                  (DockerURL (dep s))) s);
             ev_at := now (world s) |}].
  destruct (r_err (ask _ s)); cbn [snd fst set_client world fmap option_fmap
                                    option_map];
    rewrite trace_logged, files_logged, containers_logged;
    (split; [done |]);
    (split; [apply Forall_cons_2; [apply Hc | apply Forall_nil_2] |]); done.
Qed.

Lemma confined_theDocker (allowed : Call → bool) :
  (∀ url, allowed (docker_NewDockerClient url) = true) →
  confined allowed theDocker.
Proof.
  intros Hc. unfold theDocker. apply confined_bind; [by apply confined_docker |].
  intros [[c |] [e |]];
    first [apply confined_fail | apply confined_ret | apply confined_panic].
Qed.

(** That a call is among those of a deploy that is not promoted. *)
Ltac is_allowed :=
  first
    [ reflexivity
    | cbv beta iota zeta delta [unpromoted];
      rewrite ?String.eqb_refl, ?orb_true_r; reflexivity ].

Ltac confine :=
  repeat first
    [ apply confined_ret | apply confined_fail | apply confined_panic
    | apply confined_spin | apply confined_orPanic | apply confined_Now
    | apply confined_Dump | apply confined_read_dep
    | apply confined_theDocker; [intro; is_allowed]
    | apply confined_Inspect; [is_allowed]
    | apply confined_Create; [is_allowed]
    | apply confined_Start; [is_allowed]
    | apply confined_Remove; [is_allowed]
    | apply confined_os_Create; [is_allowed]
    | apply confined_Execute; [is_allowed]
    | apply confined_Close; [is_allowed]
    | apply confined_os_Remove; [is_allowed]
    | apply confined_FindProcess; [is_allowed]
    | apply confined_Signal; [is_allowed]
    | apply confined_ReadFile; [is_allowed]
    | apply confined_Head; [is_allowed]
    | apply confined_BodyClose; [is_allowed]
    | apply confined_Sleep; [is_allowed]
    | apply confined_orWrap | apply confined_bind
    | match goal with
      | |- ∀ _, _ => intro
      | |- confined _ (match ?x with _ => _ end) => destruct x
      end ].

Lemma startRedis_unpromoted tag : confined (unpromoted tag) startRedis.
Proof. unfold startRedis. cbv zeta. confine. Qed.

Lemma rellEnv_unpromoted tag : confined (unpromoted tag) rellEnv.
Proof. unfold rellEnv. cbv zeta. confine. Qed.

Lemma startRell_unpromoted tag : confined (unpromoted tag) (startRell tag).
Proof.
  pose proof (rellEnv_unpromoted tag) as Henv.
  unfold startRell. cbv zeta.
  apply confined_bind; [confine |]. intros c.
  apply confined_bind; [confine |]. intros [ci | err].
  - destruct (Running ci); [confine |].
    apply confined_bind; [confine |]. intros _.
    apply confined_bind; [exact Henv |]. confine.
  - destruct (negb (is_ErrNotFound err)); [confine |].
    apply confined_bind; [exact Henv |]. confine.
Qed.

Lemma genTagNginxConf_unpromoted tag :
  confined (unpromoted tag) (genTagNginxConf tag).
Proof.
  unfold genTagNginxConf.
  apply confined_bind; [confine |]. intros c.
  apply confined_bind; [confine |]. intros ci.
  apply (confined_bind_with _
           (λ f, f = containerNginxConfPath (containerNameForTag tag)));
    [confine | intros s f s'; apply os_Create_returns |].
  intros f ->.
  apply confined_bind; [confine |]. intros d.
  cbv zeta. generalize (tagNginxConf
    {| tag_BackendName := containerNameForTag tag;
       tag_ServerName := tag +:+ "." +:+ ServerSuffix d;
       tag_IpAddress := IpAddress ci; tag_Port := rellPort;
       tag_CertFile := CertFile d; tag_KeyFile := KeyFile d |}).
  intros text. confine.
Qed.

Lemma hupNginx_unpromoted tag : confined (unpromoted tag) hupNginx.
Proof. unfold hupNginx. confine. Qed.

Lemma infoCheck_loop_unpromoted tag budget u until :
  confined (unpromoted tag) (infoCheck_loop budget u until).
Proof.
  induction budget as [| budget IH]; cbn [infoCheck_loop];
    [apply confined_spin |].
  apply confined_bind; [confine |]. intros [res | err]; [confine |].
  apply confined_bind; [confine |]. intros t.
  destruct (time.After t until); [confine |].
  apply confined_bind; [confine | auto].
Qed.

Lemma infoCheck_unpromoted budget tag :
  confined (unpromoted tag) (infoCheck budget tag).
Proof.
  unfold infoCheck.
  apply confined_bind; [confine |]. intros c.
  apply confined_bind; [confine |]. intros ci.
  apply confined_bind; [confine |]. intros t.
  apply infoCheck_loop_unpromoted.
Qed.

Lemma DeployTag_unpromoted budget tag :
  confined (unpromoted tag) (DeployTag budget tag false).
Proof.
  unfold DeployTag.
  apply confined_bind; [apply startRedis_unpromoted |]. intros _.
  apply confined_bind; [apply startRell_unpromoted |]. intros _.
  apply confined_bind; [apply genTagNginxConf_unpromoted |]. intros _.
  apply confined_bind; [apply infoCheck_unpromoted |]. intros _.
  apply confined_bind; [apply confined_ret |]. intros _.
  apply confined_bind; [apply hupNginx_unpromoted |]. intros _.
  apply confined_ret.
Qed.

Lemma unpromoted_writes tag p c :
  p ≠ containerNginxConfPath (containerNameForTag tag) →
  unpromoted tag c = true → writes p c = false.
Proof.
  intros Hp. unfold unpromoted, writes.
  destruct c; try done; intros ->%String.eqb_eq; by apply String.eqb_neq.
Qed.

Lemma unpromoted_acts_on tag x c :
  refers redisContainerName x = false →
  refers (containerNameForTag tag) x = false →
  unpromoted tag c = true → is_start c = false → acts_on x c = false.
Proof.
  intros Hredis Hrell. unfold unpromoted, acts_on, is_start.
  destruct c; try done.
  by intros [->%String.eqb_eq | ->%String.eqb_eq]%orb_true_iff.
Qed.

(** A deploy that is not promoted writes no file except the config of
    its tag, and stops or removes no container except stale ones under
    the names of the cache and of its release. *)
Lemma DeployTag_unpromoted_frame (budget : nat) (tag : string) (s : State) :
  let s' := snd (DeployTag budget tag false s) in
  ∃ evs,
    trace (world s') = trace (world s) ++ evs
    ∧ Forall (λ e, unpromoted tag (ev_call e) = true) evs
    ∧ (∀ p, p ≠ containerNginxConfPath (containerNameForTag tag) →
            files (world s') !! p = files (world s) !! p)
    ∧ (∀ x, refers redisContainerName x = false →
            refers (containerNameForTag tag) x = false →
            Forall (λ e, is_start (ev_call e) = true →
                         acts_on x (ev_call e) = false) evs →
            x ∈ containers (world s) → x ∈ containers (world s')).
Proof.
  intros s'. destruct (DeployTag_unpromoted budget tag s)
    as (evs & Htrace & Hcalls & Hfiles & Hcs).
  exists evs. split; [done |]. split; [done |]. split.
  - intros p Hp. apply Hfiles. eapply Forall_impl; [exact Hcalls |].
    intros e. by apply unpromoted_writes.
  - intros x Hredis Hrell Hstarts. apply Hcs.
    rewrite Forall_forall in Hcalls, Hstarts. apply Forall_forall.
    intros e He. specialize (Hcalls e He). specialize (Hstarts e He).
    destruct (is_start (ev_call e)) eqn:Hs; [by apply Hstarts |].
    by eapply unpromoted_acts_on.
Qed.

(** With a tag that has no slash and is not [prod], a deploy that is not
    promoted leaves the production config and the record of the last
    promoted tag as they are. *)
Lemma DeployTag_unpromoted_production (budget : nat) (tag : string) (s : State) :
  GoString.no_slashb tag = true → tag ≠ "prod" →
  let s' := snd (DeployTag budget tag false s) in
  files (world s') !! filepath.Join nginxConfDir prodNginxConfFile
  = files (world s) !! filepath.Join nginxConfDir prodNginxConfFile
  ∧ files (world s') !! lastDeployTagFile = files (world s) !! lastDeployTagFile.
Proof.
  intros Hslash Htag s'.
  destruct (DeployTag_unpromoted_frame budget tag s)
    as (evs & _ & _ & Hfiles & _).
  split; apply Hfiles.
  - intros Heq. apply Htag. apply conf_path_inj; [done | done |].
    rewrite <- Heq. reflexivity.
  - rewrite conf_path by done. unfold lastDeployTagFile.
    intros Heq. apply (f_equal (String.get 1)) in Heq. discriminate Heq.
Qed.

Lemma DeployTag_unpromoted_production_witness :
  let s := Sample.state Sample.stopped (Sample.warming 2 time.Second) in
  let s' := snd (DeployTag 2402 "v42" false s) in
  files (world s') !! filepath.Join nginxConfDir prodNginxConfFile
  = files (world s) !! filepath.Join nginxConfDir prodNginxConfFile
  ∧ files (world s') !! lastDeployTagFile = files (world s) !! lastDeployTagFile.
Proof.
  intros s. apply (DeployTag_unpromoted_production 2402 "v42" s).
  - reflexivity.
  - discriminate.
Defined.

(** C2 fails for the tag [prod]: the config of that tag is the
    production config, so the deploy that is not promoted replaces the
    production config by a config for the container [rell-prod], and
    returns normally. *)
Theorem DeployTag_unpromoted_prod_tag :
  let s := Sample.state Sample.v41_live Sample.calm in
  let out := DeployTag 1 "prod" false s in
  containerNginxConfPath (containerNameForTag "prod")
  = filepath.Join nginxConfDir prodNginxConfFile
  ∧ fst out = Done tt
  ∧ files (world s) !! filepath.Join nginxConfDir prodNginxConfFile
    = Some "production"
  ∧ files (world (snd out)) !! filepath.Join nginxConfDir prodNginxConfFile
    = Some (tagNginxConf
              {| tag_BackendName := "rell-prod";
                 tag_ServerName := "prod.minetti.fbrell.com";
                 tag_IpAddress := "172.17.0.2";
                 tag_Port := rellPort;
                 tag_CertFile := "/etc/nginx/cert/star-minetti-cert.pem";
                 tag_KeyFile := "/etc/nginx/cert/star-minetti-key.pem" |}).
Proof. vm_compute. repeat split; reflexivity. Qed.
